(** * libgreat: LPC43xx GPIO driver (firmware/drivers/gpio)

    A shallow embedding of the GPIO driver of libgreat.  The driver is a
    thin layer of C functions over memory-mapped registers: every function
    validates its port / pin argument, computes a register address and
    performs volatile loads and stores.  The embedding keeps that shape:

    - machine integers are [Z] with the wrap-around written out ([u8],
      [u32]);
    - the register file is a map from bus addresses to 32-bit words, and
      every access is recorded in a chronological trace of bus events, so
      that "performs no hardware write" is a statement about the trace;
    - the calls into the SCU pinmux driver and into the debug log are
      recorded in the same trace;
    - a read of a constant table outside its declared bounds is undefined
      behaviour in C; it is the only way a computation of type [M A] can
      yield [None]. *)

From Stdlib Require Import ZArith List Bool Lia.
Import ListNotations.
Local Open Scope Z_scope.

(** ** Machine integers *)

(** Conversion to [uint8_t]. *)
Definition u8 (z : Z) : Z := z mod 2 ^ 8.

(** Conversion to [uint32_t] (also [uintptr_t] and [size_t] on the
    Cortex-M4 the driver targets). *)
Definition u32 (z : Z) : Z := z mod 2 ^ 32.

(** [sizeof(uint32_t)]. *)
Definition sizeof_uint32_t : Z := 4.

(** [EINVAL] of <errno.h>. *)
Definition EINVAL : Z := 22.

(** ** Platform declarations (drivers/platform_gpio.h, drivers/scu.h) *)

(** Modelled from the spec: [GPIO_MAX_PORTS] is declared in
    drivers/platform_gpio.h, which is not part of the sources at hand.  The
    spec describes it as the first dimension of the topology tables; both
    tables are initialised with six rows. *)
Definition GPIO_MAX_PORTS : Z := 6.

(** Modelled from the spec: [GPIO_MAX_PORT_BITS] is declared in
    drivers/platform_gpio.h as well.  The spec describes it as the second
    dimension of the topology tables; every row is initialised with twenty
    entries. *)
Definition GPIO_MAX_PORT_BITS : Z := 20.

(** Modelled from the spec: [gpio_pin_t] is declared in
    drivers/platform_gpio.h.  The spec gives it as the value type
    [{ port; pin }]; the constructor carries the name of the helper
    [gpio_pin(port, pin)] the driver builds pins with. *)
Record gpio_pin_t : Type := gpio_pin { port : Z; pin : Z }.

(** Modelled from the spec: [gpio_resistor_configuration_t] is the
    enumeration of pull-resistor modes of drivers/scu.h.  The driver names
    one enumerator, [SCU_NO_PULL], and passes every mode through unchanged;
    the other enumerators are kept as an opaque code. *)
Inductive gpio_resistor_configuration_t : Type :=
| SCU_NO_PULL
| SCU_RESISTOR_MODE (code : Z).

(** The logical pins the spec calls valid. *)
Definition valid_port (p : Z) : Prop := 0 <= p < GPIO_MAX_PORTS.

Definition valid_pin (p : gpio_pin_t) : Prop :=
  0 <= port p < GPIO_MAX_PORTS /\ 0 <= pin p < GPIO_MAX_PORT_BITS.

(** ** Physical locations of the GPIO parameters *)

Definition GPIO_LPC_BASE : Z := 0x400f4000.
Definition GPIO_LPC_PIN_WORD_OFFSET : Z := 0x1000.
Definition GPIO_LPC_PORT_OFFSET : Z := 0x2000.
Definition GPIO_LPC_PIN_WORD_SIZE : Z := 32 * sizeof_uint32_t.

(** Byte offsets of the fields of the packed [struct gpio_registers]: each
    field is one word followed by 31 reserved words. *)
Module gpio_registers.
Definition direction : Z := 0x000.
Definition mask : Z := 0x080.
Definition pins : Z := 0x100.
Definition masked_pins : Z := 0x180.
Definition set : Z := 0x200.
Definition clear : Z := 0x280.
Definition toggle : Z := 0x300.
End gpio_registers.

(** ** The bus: events, register file, device behaviour *)

Inductive event : Type :=
| BusLoad (addr : Z)
| BusStore (addr value : Z)
| PrWarning (args : list Z)
| ScuConfigurePinGpio (group pin_number func : Z)
                      (resistor_mode : gpio_resistor_configuration_t).

Definition is_store (e : event) : bool :=
  match e with BusStore _ _ => true | _ => false end.

(** Number of hardware writes recorded in a trace. *)
Definition count_writes (t : list event) : nat :=
  length (filter is_store t).

Definition regfile : Type := Z -> Z.

Definition upd (m : regfile) (a v : Z) : regfile :=
  fun a' => if a' =? a then v else m a'.

(** [in_bank off a]: [a] is a word of the 32-word register bank that
    starts [off] bytes into the port region. *)
Definition in_bank (off a : Z) : bool :=
  let base := GPIO_LPC_BASE + GPIO_LPC_PORT_OFFSET + off in
  (base <=? a) && (a <? base + 32 * sizeof_uint32_t)
  && ((a - base) mod sizeof_uint32_t =? 0).

(** Modelled from the spec: the response of the GPIO peripheral to a
    store, which is hardware and not code.  Following section 4.2, a store
    to a set / clear / toggle word ors / and-nots / xors the stored mask
    into the pin word of the same port and keeps nothing else; a store to
    the masked-pins word replaces the pin bits selected by the mask
    register; direction, mask, pin and per-pin words are plain storage. *)
Definition hw_store (a v : Z) (m : regfile) : regfile :=
  if in_bank gpio_registers.set a then
    let p := a - gpio_registers.set + gpio_registers.pins in
    upd m p (Z.lor (m p) v)
  else if in_bank gpio_registers.clear a then
    let p := a - gpio_registers.clear + gpio_registers.pins in
    upd m p (Z.land (m p) (Z.lnot v))
  else if in_bank gpio_registers.toggle a then
    let p := a - gpio_registers.toggle + gpio_registers.pins in
    upd m p (Z.lxor (m p) v)
  else if in_bank gpio_registers.masked_pins a then
    let p := a - gpio_registers.masked_pins + gpio_registers.pins in
    let k := a - gpio_registers.masked_pins + gpio_registers.mask in
    upd m p (Z.lor (Z.land (m p) (Z.lnot (m k))) (Z.land v (m k)))
  else upd m a v.

(** Modelled from the spec: the response of the GPIO peripheral to a
    load.  The masked-pins word reads back the pin word filtered by the
    mask register; every other word reads back what it holds. *)
Definition hw_load (a : Z) (m : regfile) : Z :=
  if in_bank gpio_registers.masked_pins a then
    let p := a - gpio_registers.masked_pins + gpio_registers.pins in
    let k := a - gpio_registers.masked_pins + gpio_registers.mask in
    Z.land (m p) (m k)
  else m a.

Record world : Type := World { regs : regfile; trace : list event }.

(** The register file after reset, with nothing recorded yet. *)
Definition reset_world : world := World (fun _ => 0) [].

(** ** The monad of driver code *)

Definition M (A : Type) : Type := world -> option (A * world).

Definition ret {A : Type} (a : A) : M A := fun w => Some (a, w).

Definition bind {A B : Type} (m : M A) (f : A -> M B) : M B :=
  fun w => match m w with
           | Some (a, w') => f a w'
           | None => None
           end.

Notation "x <- m ;; k" := (bind m (fun x => k))
  (at level 61, m at next level, right associativity).
Notation "m ;; k" := (bind m (fun _ => k))
  (at level 61, right associativity).

Definition emit (e : event) : M unit :=
  fun w => Some (tt, World (regs w) (trace w ++ [e])).

Definition load (a : Z) : M Z :=
  fun w => Some (hw_load a (regs w), World (regs w) (trace w ++ [BusLoad a])).

Definition store (a v : Z) : M unit :=
  fun w => Some (tt, World (hw_store a v (regs w)) (trace w ++ [BusStore a v])).

(** [pr_warning] of <debug.h>; only its arguments are recorded. *)
Definition pr_warning (args : list Z) : M unit := emit (PrWarning args).

(** [platform_scu_configure_pin_gpio] of drivers/scu.h, the pinmux
    collaborator; the call is recorded with its arguments and its result
    is discarded, as the driver does.  What the SCU driver then does to
    the pin multiplexer is not modelled: the event in the trace is all
    that is known of the call, and nothing is to be read into the
    register file of a run that has made it. *)
Definition platform_scu_configure_pin_gpio
    (group pin_number func : Z) (r : gpio_resistor_configuration_t) : M unit :=
  emit (ScuConfigurePinGpio group pin_number func r).

(** Result, final trace and final register file of a run. *)
Definition result_of {A : Type} (m : M A) (w : world) : option A :=
  option_map fst (m w).

Definition trace_of {A : Type} (m : M A) (w : world) : option (list event) :=
  option_map (fun r => trace (snd r)) (m w).

Definition regs_of {A : Type} (m : M A) (w : world) : option regfile :=
  option_map (fun r => regs (snd r)) (m w).

(** ** Validation *)

(** [validate_port]: 0 on success, [EINVAL] otherwise.  The comparison is
    the source's [port > GPIO_MAX_PORTS]. *)
Definition validate_port (port : Z) : M Z :=
  if port >? GPIO_MAX_PORTS then
    pr_warning [port] ;;
    ret EINVAL
  else ret 0.

(** [validate_port_and_pin]: 0 on success, [EINVAL] otherwise.  The second
    comparison is the source's [pin.port > GPIO_MAX_PORT_BITS]. *)
Definition validate_port_and_pin (p : gpio_pin_t) : M Z :=
  rc <- validate_port (port p) ;;
  if negb (rc =? 0) then ret EINVAL
  else if port p >? GPIO_MAX_PORT_BITS then
    pr_warning [port p; pin p] ;;
    ret EINVAL
  else ret 0.

(** ** Register addresses *)

(** Address of the register block of a port. *)
Definition gpio_get_registers (port : Z) : Z :=
  u32 ((GPIO_LPC_BASE + GPIO_LPC_PORT_OFFSET) + port * sizeof_uint32_t).

(** Address of the word-access register of a pin. *)
Definition gpio_get_pin_register (p : gpio_pin_t) : Z :=
  u32 ((GPIO_LPC_BASE + GPIO_LPC_PIN_WORD_OFFSET)
       + port p * GPIO_LPC_PIN_WORD_SIZE
       + pin p * sizeof_uint32_t).

(** ** Topology tables *)

(** The initialisers of the two tables as the source writes them; the
    element type is [uint8_t], so [-1] is stored as [0xff]. *)
Definition gpio_to_pin_group : list (list Z) := map (map u8)
  [ (* GPIO0 *)
    [0; 0; 1; 1; 1; 6; 3; 2; 1; 1; 1; 1; 1; 1; 2; 1; -1; -1; -1; -1];
    (* GPIO1 *)
    [1; 1; 1; 1; 1; 1; 1; 1; 1; 1; 2; 2; 2; 2; 3; 3; -1; -1; -1; -1];
    (* GPIO2 *)
    [4; -1; 4; 4; 4; 4; 4; 5; -1; 5; 5; 5; 5; 5; 5; 5; -1; -1; -1; -1];
    (* GPIO3 *)
    [6; 6; 6; 6; 6; 6; 6; -1; 7; 7; 7; -1; -1; -1; -1; 7; -1; -1; -1; -1];
    (* GPIO4 *)
    [-1; -1; -1; -1; -1; -1; -1; -1; -1; -1; -1; 9; -1; -1; -1; -1; -1; -1;
     -1; -1];
    (* GPIO5 *)
    [2; 2; 2; 2; 2; 2; 2; 2; 3; 3; 3; -1; 4; 4; 4; 6; 6; -1; 9; -1] ].

Definition gpio_to_pin_number : list (list Z) := map (map u8)
  [ (* GPIO0 *)
    [0; 1; 15; 16; 0; 6; 6; 7; 1; 2; 3; 4; 17; 18; 10; 20; -1; -1; -1; -1];
    (* GPIO1 *)
    [7; 8; 9; 10; 11; 12; 13; 14; 5; 6; 9; 11; 12; 13; 4; 5; -1; -1; -1; -1];
    (* GPIO2 *)
    [0; -1; 2; 3; 4; 5; 6; 7; -1; 0; 1; 2; 3; 4; 5; 6; -1; -1; -1; -1];
    (* GPIO3 *)
    [1; 2; 3; 4; 5; 9; 10; -1; 0; 1; 2; -1; -1; -1; -1; 7; -1; -1; -1; -1];
    (* GPIO4 *)
    [-1; -1; -1; -1; -1; -1; -1; -1; -1; -1; -1; 6; -1; -1; -1; -1; -1; -1;
     -1; -1];
    (* GPIO5 *)
    [0; 1; 2; 3; 4; 5; 6; 8; 1; 2; 7; -1; 8; 9; 10; 7; 8; -1; 5; -1] ].

(** The value the driver tests table entries against: [0xff]. *)
Definition UNROUTED : Z := 0xff.

(** [table[port][pin]]; [None] outside the bounds of the array. *)
Definition table_entry (table : list (list Z)) (port pin : Z) : option Z :=
  if (0 <=? port) && (0 <=? pin) then
    match nth_error table (Z.to_nat port) with
    | Some row => nth_error row (Z.to_nat pin)
    | None => None
    end
  else None.

(** Reading a table inside driver code; an access outside the array is
    undefined behaviour and ends the run. *)
Definition table_read (table : list (list Z)) (port pin : Z) : M Z :=
  fun w => option_map (fun v => (v, w)) (table_entry table port pin).

(** Returns the SCU group number for the given GPIO bit. *)
Definition gpio_get_group_number (p : gpio_pin_t) : M Z :=
  rc <- validate_port_and_pin p ;;
  if negb (rc =? 0) then ret (u8 (-1))
  else table_read gpio_to_pin_group (port p) (pin p).

(** Returns the SCU pin number for the given GPIO bit. *)
Definition gpio_get_pin_number (p : gpio_pin_t) : M Z :=
  rc <- validate_port_and_pin p ;;
  if negb (rc =? 0) then ret (u8 (-1))
  else table_read gpio_to_pin_number (port p) (pin p).

(** ** Pinmux configuration *)

Definition gpio_configure_pinmux_and_resistors
    (p : gpio_pin_t) (resistor_mode : gpio_resistor_configuration_t) : M Z :=
  rc <- validate_port_and_pin p ;;
  if negb (rc =? 0) then ret EINVAL
  else
    scu_group <- gpio_get_group_number p ;;
    scu_pin <- gpio_get_pin_number p ;;
    if (scu_group =? 0xff) || (scu_pin =? 0xff) then ret EINVAL
    else
      let scu_function := if port p =? 5 then 4 else 0 in
      platform_scu_configure_pin_gpio scu_group scu_pin scu_function
                                      resistor_mode ;;
      ret 0.

(** The source's [gpio_configure_pinmux] has no [return] statement: the
    result of the inner call is dropped and no value is produced. *)
Definition gpio_configure_pinmux (p : gpio_pin_t) : M unit :=
  gpio_configure_pinmux_and_resistors p SCU_NO_PULL ;;
  ret tt.

(** [for (int pin = first; pin < first + count; ++pin) body(pin);] *)
Fixpoint for_each_pin (count : nat) (first : Z) (body : Z -> M unit) : M unit :=
  match count with
  | O => ret tt
  | S n => body first ;; for_each_pin n (first + 1) body
  end.

Definition gpio_configure_port_pinmuxes (port : Z) : M Z :=
  rc <- validate_port port ;;
  if negb (rc =? 0) then ret EINVAL
  else
    for_each_pin (Z.to_nat GPIO_MAX_PORT_BITS) 0
                 (fun pin => gpio_configure_pinmux (gpio_pin port pin)) ;;
    ret 0.

(** ** Direction *)

Definition gpio_set_port_direction (port mask output_mask : Z) : M Z :=
  let reg := gpio_get_registers port in
  rc <- validate_port port ;;
  if negb (rc =? 0) then ret EINVAL
  else
    to_apply <- load (reg + gpio_registers.direction) ;;
    let to_apply := Z.land to_apply (u32 (Z.lnot mask)) in
    let to_apply := Z.lor to_apply output_mask in
    store (reg + gpio_registers.direction) to_apply ;;
    ret 0.

Definition gpio_get_port_direction (port : Z) : M Z :=
  let reg := gpio_get_registers port in
  rc <- validate_port port ;;
  if negb (rc =? 0) then ret 0
  else load (reg + gpio_registers.direction).

Definition gpio_get_pin_direction (p : gpio_pin_t) : M Z :=
  pins <- gpio_get_port_direction (port p) ;;
  rc <- validate_port_and_pin p ;;
  if negb (rc =? 0) then ret 0
  else ret (Z.land (Z.shiftr pins (pin p)) 1).

Definition gpio_set_pin_direction (p : gpio_pin_t) (is_output : bool) : M Z :=
  let mask := u32 (Z.shiftl 1 (pin p)) in
  rc <- validate_port_and_pin p ;;
  if negb (rc =? 0) then ret EINVAL
  else gpio_set_port_direction (port p) mask (if is_output then mask else 0).

(** ** Port values *)

Definition gpio_set_port_value (port mask value : Z) : M Z :=
  let reg := gpio_get_registers port in
  rc <- validate_port port ;;
  if negb (rc =? 0) then ret EINVAL
  else
    store (reg + gpio_registers.mask) mask ;;
    store (reg + gpio_registers.masked_pins) value ;;
    ret 0.

Definition gpio_set_port_bits (port mask : Z) : M Z :=
  let reg := gpio_get_registers port in
  rc <- validate_port port ;;
  if negb (rc =? 0) then ret EINVAL
  else
    store (reg + gpio_registers.set) mask ;;
    ret 0.

Definition gpio_clear_port_bits (port mask : Z) : M Z :=
  let reg := gpio_get_registers port in
  rc <- validate_port port ;;
  if negb (rc =? 0) then ret EINVAL
  else
    store (reg + gpio_registers.clear) mask ;;
    ret 0.

Definition gpio_toggle_port_bits (port mask : Z) : M Z :=
  let reg := gpio_get_registers port in
  rc <- validate_port port ;;
  if negb (rc =? 0) then ret EINVAL
  else
    store (reg + gpio_registers.toggle) mask ;;
    ret 0.

Definition gpio_get_port_value (port mask : Z) : M Z :=
  let reg := gpio_get_registers port in
  rc <- validate_port port ;;
  if negb (rc =? 0) then ret (u32 EINVAL)
  else
    store (reg + gpio_registers.mask) mask ;;
    load (reg + gpio_registers.masked_pins).

(** ** Pin values *)

Definition gpio_set_pin_value (p : gpio_pin_t) (value : Z) : M Z :=
  let pin_reg := gpio_get_pin_register p in
  rc <- validate_port_and_pin p ;;
  if negb (rc =? 0) then ret EINVAL
  else
    store pin_reg value ;;
    ret 0.

Definition gpio_set_pin (p : gpio_pin_t) : M Z :=
  rc <- validate_port_and_pin p ;;
  if negb (rc =? 0) then ret EINVAL
  else
    gpio_set_port_bits (port p) (u32 (Z.shiftl 1 (pin p))) ;;
    ret 0.

Definition gpio_clear_pin (p : gpio_pin_t) : M Z :=
  rc <- validate_port_and_pin p ;;
  if negb (rc =? 0) then ret EINVAL
  else
    gpio_clear_port_bits (port p) (u32 (Z.shiftl 1 (pin p))) ;;
    ret 0.

Definition gpio_toggle_pin (p : gpio_pin_t) : M Z :=
  rc <- validate_port_and_pin p ;;
  if negb (rc =? 0) then ret EINVAL
  else
    gpio_toggle_port_bits (port p) (u32 (Z.shiftl 1 (pin p))) ;;
    ret 0.

Definition gpio_get_pin_value (p : gpio_pin_t) : M Z :=
  let pin_reg := gpio_get_pin_register p in
  rc <- validate_port_and_pin p ;;
  if negb (rc =? 0) then ret (u8 EINVAL)
  else
    word <- load pin_reg ;;
    ret (if negb (word =? 0) then 1 else 0).

Definition gpio_fast_get_pin_value (p : gpio_pin_t) : M Z :=
  load (gpio_get_pin_register p).

(** ** Vocabulary of the statements *)

(** The world after a warning has been logged. *)
Definition warned (w : world) (args : list Z) : world :=
  World (regs w) (trace w ++ [PrWarning args]).

(** A world in which port 0 reads back [EINVAL] through the masked-pins
    word: the pin word of port 0 holds 22. *)
Definition pins_read_22 : world :=
  World (upd (regs reset_world)
             (gpio_get_registers 0 + gpio_registers.pins) 22) [].

Definition all_ports : list Z :=
  map Z.of_nat (seq 0 (Z.to_nat GPIO_MAX_PORTS)).

Definition all_pin_indices : list Z :=
  map Z.of_nat (seq 0 (Z.to_nat GPIO_MAX_PORT_BITS)).

(** Every valid logical pin, port by port. *)
Definition all_pins : list gpio_pin_t :=
  flat_map (fun port => map (gpio_pin port) all_pin_indices) all_ports.

(** A slot is consistent when both tables have an entry for it, both
    entries are bytes, and either both or neither is the sentinel. *)
Definition consistent_slot (p : gpio_pin_t) : bool :=
  match table_entry gpio_to_pin_group (port p) (pin p),
        table_entry gpio_to_pin_number (port p) (pin p) with
  | Some g, Some n =>
      (0 <=? g) && (g <=? UNROUTED) && (0 <=? n) && (n <=? UNROUTED)
      && Bool.eqb (g =? UNROUTED) (n =? UNROUTED)
  | _, _ => false
  end.

(** The direction word of a port as the bus reads it. *)
Definition direction_word (port : Z) (m : regfile) : Z :=
  hw_load (gpio_get_registers port + gpio_registers.direction) m.

(** The direction word of a port after [gpio_set_port_direction]. *)
Definition direction_after (port mask output_mask : Z) (w : world) : option Z :=
  option_map (direction_word port)
             (regs_of (gpio_set_port_direction port mask output_mask) w).

(** The frame property of the direction word: every bit the mask does
    not select has the same value before and after the call. *)
Definition unmasked_bits_unchanged (port mask output_mask : Z) (w : world) : Prop :=
  forall i, 0 <= i < 32 -> Z.testbit mask i = false ->
    option_map (fun d => Z.testbit d i) (direction_after port mask output_mask w)
    = Some (Z.testbit (direction_word port (regs w)) i).

(** The pin word of a port as the bus reads it. *)
Definition pins_word (port : Z) (m : regfile) : Z :=
  hw_load (gpio_get_registers port + gpio_registers.pins) m.

(** ** Further code and vocabulary *)

(** [platform_gpio_get_pin_register]: the platform-specific name of
    [gpio_get_pin_register]. *)
Definition platform_gpio_get_pin_register (p : gpio_pin_t) : Z :=
  gpio_get_pin_register p.

(** The fields of [struct gpio_registers], in declaration order. *)
Definition gpio_register_fields : list Z :=
  [ gpio_registers.direction; gpio_registers.mask; gpio_registers.pins;
    gpio_registers.masked_pins; gpio_registers.set; gpio_registers.clear;
    gpio_registers.toggle ].

(** The mask the pin-level functions build: [1 << pin.pin]. *)
Definition pin_mask (p : gpio_pin_t) : Z := u32 (Z.shiftl 1 (pin p)).

(** [first], [first + 1], ..., [count] values in all: the indices a
    [for] loop visits. *)
Fixpoint pins_from (first : Z) (count : nat) : list Z :=
  match count with
  | O => []
  | S n => first :: pins_from (first + 1) n
  end.

(** A computation that terminates, leaves every register as it was and
    adds no store to the trace. *)
Definition read_only {A : Type} (m : M A) (w : world) : Prop :=
  exists v w', m w = Some (v, w') /\
               regs w' = regs w /\
               count_writes (trace w') = count_writes (trace w).

(** The status the [int]-returning functions hand back for a port. *)
Definition port_status (port : Z) : Z :=
  if port >? GPIO_MAX_PORTS then EINVAL else 0.

(** The collaborator call [gpio_configure_pinmux] makes for a pin: none
    when a table read fails or yields the sentinel. *)
Definition pin_route_events (p : gpio_pin_t) : list event :=
  match table_entry gpio_to_pin_group (port p) (pin p),
        table_entry gpio_to_pin_number (port p) (pin p) with
  | Some g, Some n =>
      if (g =? UNROUTED) || (n =? UNROUTED) then []
      else [ScuConfigurePinGpio g n (if port p =? 5 then 4 else 0) SCU_NO_PULL]
  | _, _ => []
  end.

(** The collaborator calls for the pins of a port, in ascending order of
    the pin index. *)
Definition port_route_events (port : Z) : list event :=
  flat_map (fun idx => pin_route_events (gpio_pin port idx))
           (pins_from 0 (Z.to_nat GPIO_MAX_PORT_BITS)).

(** [true] unless the two pins are different, both routed, and the tables
    give them the same group and the same pin number. *)
Definition routes_differ (p q : gpio_pin_t) : bool :=
  match table_entry gpio_to_pin_group (port p) (pin p),
        table_entry gpio_to_pin_number (port p) (pin p),
        table_entry gpio_to_pin_group (port q) (pin q),
        table_entry gpio_to_pin_number (port q) (pin q) with
  | Some g1, Some n1, Some g2, Some n2 =>
      (g1 =? UNROUTED) || (n1 =? UNROUTED)
      || negb ((g1 =? g2) && (n1 =? n2))
      || ((port p =? port q) && (pin p =? pin q))
  | _, _, _, _ => true
  end.

(** * Properties *)

(** One step of a run whose validation has been rewritten to success. *)
Ltac run_step :=
  cbv beta iota; change (negb (0 =? 0)) with false; cbv beta iota.

(** ** What the validation functions accept and reject *)

Section Validation.

Variable w : world.

Lemma validate_port_accepts (port : Z) :
  port <= GPIO_MAX_PORTS -> validate_port port w = Some (0, w).
Proof.
  intros Hle. unfold validate_port.
  destruct (Z.gtb_spec port GPIO_MAX_PORTS) as [Hgt | _]; [lia | reflexivity].
Qed.

Lemma validate_port_rejects (port : Z) :
  GPIO_MAX_PORTS < port ->
  validate_port port w = Some (EINVAL, warned w [port]).
Proof.
  intros Hlt. unfold validate_port.
  destruct (Z.gtb_spec port GPIO_MAX_PORTS) as [_ | Hle]; [reflexivity | lia].
Qed.

(** A pin is accepted as soon as its port is at most [GPIO_MAX_PORTS]:
    the second comparison of [validate_port_and_pin] looks at the port
    again, and a port that passed the first one passes it too. *)
Lemma validate_port_and_pin_accepts (p : gpio_pin_t) :
  port p <= GPIO_MAX_PORTS -> validate_port_and_pin p w = Some (0, w).
Proof.
  intros Hle. unfold validate_port_and_pin, bind.
  rewrite validate_port_accepts by exact Hle. run_step.
  destruct (Z.gtb_spec (port p) GPIO_MAX_PORT_BITS) as [Hgt | _];
    [unfold GPIO_MAX_PORTS, GPIO_MAX_PORT_BITS in *; lia | reflexivity].
Qed.

Lemma validate_port_and_pin_rejects (p : gpio_pin_t) :
  GPIO_MAX_PORTS < port p ->
  validate_port_and_pin p w = Some (EINVAL, warned w [port p]).
Proof.
  intros Hlt. unfold validate_port_and_pin, bind.
  rewrite validate_port_rejects by exact Hlt. reflexivity.
Qed.

(** The pin index plays no part in the decision. *)
Lemma validate_port_and_pin_ignores_pin (prt i j : Z) :
  validate_port_and_pin (gpio_pin prt i) w =
  validate_port_and_pin (gpio_pin prt j) w.
Proof.
  destruct (Z.le_gt_cases prt GPIO_MAX_PORTS) as [Hle | Hgt].
  - rewrite !validate_port_and_pin_accepts by exact Hle. reflexivity.
  - rewrite !validate_port_and_pin_rejects by exact Hgt. reflexivity.
Qed.

End Validation.

Lemma count_writes_app (t1 t2 : list event) :
  count_writes (t1 ++ t2) = (count_writes t1 + count_writes t2)%nat.
Proof.
  unfold count_writes. rewrite filter_app, length_app. reflexivity.
Qed.

Lemma warned_no_write (w : world) (args : list Z) :
  count_writes (trace (warned w args)) = count_writes (trace w) /\
  regs (warned w args) = regs w.
Proof.
  unfold warned. cbn [trace regs]. rewrite count_writes_app.
  unfold count_writes at 2. cbn [filter is_store length].
  split; [lia | reflexivity].
Qed.

(** A rejected port: every port-level operation logs one warning, touches
    no register and hands back its error value, which is [EINVAL] for all
    of them but [gpio_get_port_direction]. *)
Lemma port_operations_reject (port mask value : Z) (w : world) :
  GPIO_MAX_PORTS < port ->
  let w' := warned w [port] in
  gpio_set_port_direction port mask value w = Some (EINVAL, w') /\
  gpio_get_port_direction port w = Some (0, w') /\
  gpio_set_port_value port mask value w = Some (EINVAL, w') /\
  gpio_set_port_bits port mask w = Some (EINVAL, w') /\
  gpio_clear_port_bits port mask w = Some (EINVAL, w') /\
  gpio_toggle_port_bits port mask w = Some (EINVAL, w') /\
  gpio_get_port_value port mask w = Some (EINVAL, w') /\
  gpio_configure_port_pinmuxes port w = Some (EINVAL, w').
Proof.
  intros Hlt w'.
  unfold gpio_set_port_direction, gpio_get_port_direction, gpio_set_port_value,
    gpio_set_port_bits, gpio_clear_port_bits, gpio_toggle_port_bits,
    gpio_get_port_value, gpio_configure_port_pinmuxes, bind.
  rewrite (validate_port_rejects w port Hlt).
  repeat split; reflexivity.
Qed.

(** A rejected pin: every pin-level operation touches no register and
    hands back its error value, which is [EINVAL] for all of them but
    [gpio_get_pin_direction]; that one validates twice, once through
    [gpio_get_port_direction]. *)
Lemma pin_operations_reject (p : gpio_pin_t) (value : Z) (b : bool) (w : world) :
  GPIO_MAX_PORTS < port p ->
  let w' := warned w [port p] in
  gpio_set_pin_direction p b w = Some (EINVAL, w') /\
  gpio_get_pin_direction p w = Some (0, warned w' [port p]) /\
  gpio_set_pin_value p value w = Some (EINVAL, w') /\
  gpio_set_pin p w = Some (EINVAL, w') /\
  gpio_clear_pin p w = Some (EINVAL, w') /\
  gpio_toggle_pin p w = Some (EINVAL, w') /\
  gpio_get_pin_value p w = Some (EINVAL, w').
Proof.
  intros Hlt w'.
  unfold gpio_set_pin_direction, gpio_get_pin_direction, gpio_set_pin_value,
    gpio_set_pin, gpio_clear_pin, gpio_toggle_pin, gpio_get_pin_value,
    gpio_get_port_direction, bind.
  rewrite (validate_port_rejects w (port p) Hlt).
  rewrite (validate_port_and_pin_rejects w p Hlt).
  cbv beta iota. change (negb (EINVAL =? 0)) with true. cbv beta iota.
  unfold ret at 2.
  rewrite (validate_port_and_pin_rejects (warned w [port p]) p Hlt).
  repeat split; reflexivity.
Qed.

(** An accepted pin: [gpio_set_pin_value] stores to the word register the
    address computation yields, whatever the pin index. *)
Lemma gpio_set_pin_value_accepted (p : gpio_pin_t) (value : Z) (w : world) :
  port p <= GPIO_MAX_PORTS ->
  gpio_set_pin_value p value w =
    Some (0, World (hw_store (gpio_get_pin_register p) value (regs w))
                   (trace w ++ [BusStore (gpio_get_pin_register p) value])).
Proof.
  intros Hle. unfold gpio_set_pin_value, bind.
  rewrite validate_port_and_pin_accepts by exact Hle. reflexivity.
Qed.

(** An accepted port: [gpio_set_port_bits] stores the mask to the set
    word of the block the address computation yields. *)
Lemma gpio_set_port_bits_accepted (port mask : Z) (w : world) :
  port <= GPIO_MAX_PORTS ->
  let a := gpio_get_registers port + gpio_registers.set in
  gpio_set_port_bits port mask w =
    Some (0, World (hw_store a mask (regs w)) (trace w ++ [BusStore a mask])).
Proof.
  intros Hle a. unfold gpio_set_port_bits, bind.
  rewrite validate_port_accepts by exact Hle. reflexivity.
Qed.

(** ** Out-of-range pin indices (C1) *)

(** C1.  The claim: every pin-level operation on a pin whose index is at
    least [GPIO_MAX_PORT_BITS] reports an invalid pin and writes nothing.
    The driver at port 0, pin 20 (the first index past a table row):
    validation succeeds, [gpio_set_pin_direction], [gpio_set_pin_value],
    [gpio_set_pin], [gpio_clear_pin] and [gpio_toggle_pin] all return 0
    after a store, and the two getters return a data word after a load. *)
Theorem pin_index_past_port_bits_is_accepted :
  let p := gpio_pin 0 GPIO_MAX_PORT_BITS in
  let run {A : Type} (m : M A) := (result_of m reset_world, trace_of m reset_world) in
  GPIO_MAX_PORT_BITS <= pin p /\
  run (validate_port_and_pin p) = (Some 0, Some []) /\
  run (gpio_set_pin_direction p true) =
    (Some 0, Some [BusLoad 0x400f6000; BusStore 0x400f6000 (2 ^ 20)]) /\
  run (gpio_get_pin_direction p) = (Some 0, Some [BusLoad 0x400f6000]) /\
  run (gpio_set_pin_value p 1) = (Some 0, Some [BusStore 0x400f5050 1]) /\
  run (gpio_set_pin p) = (Some 0, Some [BusStore 0x400f6200 (2 ^ 20)]) /\
  run (gpio_clear_pin p) = (Some 0, Some [BusStore 0x400f6280 (2 ^ 20)]) /\
  run (gpio_toggle_pin p) = (Some 0, Some [BusStore 0x400f6300 (2 ^ 20)]) /\
  run (gpio_get_pin_value p) = (Some 0, Some [BusLoad 0x400f5050]).
Proof.
  cbv zeta. split; [unfold GPIO_MAX_PORT_BITS, pin; lia |].
  repeat split; vm_compute; reflexivity.
Qed.

(** ** Out-of-range port indices (C2) *)

(** C2.  The claim: every port-level operation on a port index of at
    least [GPIO_MAX_PORTS] reports an invalid port and writes nothing.
    The driver at port 6 (the first index past the tables): validation
    succeeds, the five writers return 0 after storing, both getters return
    a data word ([gpio_get_port_value] after storing the mask), and
    [gpio_configure_port_pinmuxes] runs into a table read past the last
    row. *)
Theorem port_index_max_ports_is_accepted :
  let port := GPIO_MAX_PORTS in
  let run {A : Type} (m : M A) := (result_of m reset_world, trace_of m reset_world) in
  run (validate_port port) = (Some 0, Some []) /\
  run (gpio_set_port_direction port 3 1) =
    (Some 0, Some [BusLoad 0x400f6018; BusStore 0x400f6018 1]) /\
  run (gpio_get_port_direction port) = (Some 0, Some [BusLoad 0x400f6018]) /\
  run (gpio_set_port_value port 3 1) =
    (Some 0, Some [BusStore 0x400f6098 3; BusStore 0x400f6198 1]) /\
  run (gpio_set_port_bits port 3) = (Some 0, Some [BusStore 0x400f6218 3]) /\
  run (gpio_clear_port_bits port 3) = (Some 0, Some [BusStore 0x400f6298 3]) /\
  run (gpio_toggle_port_bits port 3) = (Some 0, Some [BusStore 0x400f6318 3]) /\
  run (gpio_get_port_value port 3) =
    (Some 0, Some [BusStore 0x400f6098 3; BusLoad 0x400f6198]) /\
  gpio_configure_port_pinmuxes port reset_world = None.
Proof.
  cbv zeta. repeat split; vm_compute; reflexivity.
Qed.

(** ** Errors folded into the data result (C10) *)

(** C10.  When [validate_port] fails, [gpio_get_port_value] returns
    [EINVAL] = 22 as its data word and [gpio_get_port_direction] returns 0,
    each after logging one warning and without touching a register.  The
    same words are results of legitimate reads: a valid port whose masked
    pins read 22, and a valid port whose pins are all inputs.  The result
    type of both functions is the bare word. *)
Theorem read_errors_are_folded_into_the_word (port mask : Z) (w : world) :
  result_of (validate_port port) w = Some EINVAL ->
  (gpio_get_port_value port mask w = Some (EINVAL, warned w [port]) /\
   EINVAL = 22 /\
   gpio_get_port_direction port w = Some (0, warned w [port])) /\
  (exists port' mask' w',
      valid_port port' /\
      result_of (validate_port port') w' = Some 0 /\
      result_of (gpio_get_port_value port' mask') w' = Some EINVAL) /\
  (exists port' w',
      valid_port port' /\
      result_of (validate_port port') w' = Some 0 /\
      result_of (gpio_get_port_direction port') w' = Some 0).
Proof.
  intros Hfail.
  assert (Hlt : GPIO_MAX_PORTS < port).
  { unfold result_of, validate_port in Hfail.
    destruct (Z.gtb_spec port GPIO_MAX_PORTS) as [Hgt | Hle]; [lia |].
    cbn in Hfail. discriminate Hfail. }
  destruct (port_operations_reject port mask 0 w Hlt)
    as (_ & Hdir & _ & _ & _ & _ & Hval & _).
  split; [| split].
  - repeat split; assumption.
  - exists 0, 22, pins_read_22. unfold valid_port, GPIO_MAX_PORTS.
    repeat split; try lia; vm_compute; reflexivity.
  - exists 0, reset_world. unfold valid_port, GPIO_MAX_PORTS.
    repeat split; try lia; vm_compute; reflexivity.
Qed.

Lemma read_errors_are_folded_into_the_word_witness :
  result_of (validate_port 7) reset_world = Some EINVAL /\
  result_of (gpio_get_port_value 7 0xffff) reset_world = Some 22 /\
  result_of (gpio_get_port_direction 7) reset_world = Some 0.
Proof.
  split; [reflexivity |].
  destruct (read_errors_are_folded_into_the_word 7 0xffff reset_world eq_refl)
    as [[Hval [_ Hdir]] _].
  unfold result_of. rewrite Hval, Hdir. split; reflexivity.
Defined.

(** ** The topology tables (C3, C4, C5, C6) *)

Lemma in_range_list (n : Z) (x : Z) :
  0 <= x < n -> In x (map Z.of_nat (seq 0 (Z.to_nat n))).
Proof.
  intros Hx. apply (proj2 (in_map_iff _ _ _)). exists (Z.to_nat x).
  split; [apply Z2Nat.id; lia |]. apply (proj2 (in_seq _ _ _)). lia.
Qed.

Lemma valid_pin_in_all_pins (p : gpio_pin_t) : valid_pin p -> In p all_pins.
Proof.
  destruct p as [prt idx]. intros [Hport Hpin].
  change (0 <= prt < GPIO_MAX_PORTS) in Hport.
  change (0 <= idx < GPIO_MAX_PORT_BITS) in Hpin.
  apply (proj2 (in_flat_map _ _ _)). exists prt. split.
  - apply in_range_list. exact Hport.
  - apply in_map. apply in_range_list. exact Hpin.
Qed.

Lemma all_slots_consistent : forallb consistent_slot all_pins = true.
Proof. vm_compute. reflexivity. Qed.

(** What a valid pin finds in the two tables. *)
Lemma valid_pin_slot (p : gpio_pin_t) :
  valid_pin p ->
  exists g n,
    table_entry gpio_to_pin_group (port p) (pin p) = Some g /\
    table_entry gpio_to_pin_number (port p) (pin p) = Some n /\
    0 <= g <= UNROUTED /\ 0 <= n <= UNROUTED /\
    (g = UNROUTED <-> n = UNROUTED).
Proof.
  intros Hvalid.
  pose proof (proj1 (forallb_forall _ _) all_slots_consistent p
                    (valid_pin_in_all_pins p Hvalid)) as Hslot.
  unfold consistent_slot in Hslot.
  destruct (table_entry gpio_to_pin_group (port p) (pin p)) as [g |];
    [| discriminate Hslot].
  destruct (table_entry gpio_to_pin_number (port p) (pin p)) as [n |];
    [| discriminate Hslot].
  exists g, n.
  repeat rewrite andb_true_iff in Hslot.
  destruct Hslot as [[[[Hg0 Hg1] Hn0] Hn1] Hboth].
  apply Z.leb_le in Hg0, Hg1, Hn0, Hn1. apply eqb_prop in Hboth.
  repeat split; try assumption.
  - intros ->. apply Z.eqb_eq. rewrite <- Hboth. apply Z.eqb_refl.
  - intros ->. apply Z.eqb_eq. rewrite Hboth. apply Z.eqb_refl.
Qed.

Lemma gpio_get_group_number_accepted (p : gpio_pin_t) (w : world) :
  port p <= GPIO_MAX_PORTS ->
  gpio_get_group_number p w =
    option_map (fun g => (g, w))
               (table_entry gpio_to_pin_group (port p) (pin p)).
Proof.
  intros Hle. unfold gpio_get_group_number, bind.
  rewrite validate_port_and_pin_accepts by exact Hle. reflexivity.
Qed.

Lemma gpio_get_pin_number_accepted (p : gpio_pin_t) (w : world) :
  port p <= GPIO_MAX_PORTS ->
  gpio_get_pin_number p w =
    option_map (fun n => (n, w))
               (table_entry gpio_to_pin_number (port p) (pin p)).
Proof.
  intros Hle. unfold gpio_get_pin_number, bind.
  rewrite validate_port_and_pin_accepts by exact Hle. reflexivity.
Qed.

(** The body of [gpio_configure_pinmux_and_resistors] once validation has
    passed and both table reads have produced a value. *)
Lemma gpio_configure_pinmux_and_resistors_accepted
    (p : gpio_pin_t) (r : gpio_resistor_configuration_t) (w : world) (g n : Z) :
  port p <= GPIO_MAX_PORTS ->
  table_entry gpio_to_pin_group (port p) (pin p) = Some g ->
  table_entry gpio_to_pin_number (port p) (pin p) = Some n ->
  gpio_configure_pinmux_and_resistors p r w =
    if (g =? 0xff) || (n =? 0xff) then Some (EINVAL, w)
    else Some (0, World (regs w)
                        (trace w ++ [ScuConfigurePinGpio
                                       g n (if port p =? 5 then 4 else 0) r])).
Proof.
  intros Hle Hg Hn. unfold gpio_configure_pinmux_and_resistors, bind.
  rewrite validate_port_and_pin_accepts by exact Hle. simpl.
  rewrite gpio_get_group_number_accepted by exact Hle. rewrite Hg. simpl.
  rewrite gpio_get_pin_number_accepted by exact Hle. rewrite Hn. simpl.
  destruct ((g =? 255) || (n =? 255)); reflexivity.
Qed.

(** C4.  For every valid pin both lookups return a value and leave the
    world alone, and the two values are either both the unrouted sentinel
    or both an id below it. *)
Theorem topology_tables_are_consistent (p : gpio_pin_t) (w : world) :
  valid_pin p ->
  exists g n,
    gpio_get_group_number p w = Some (g, w) /\
    gpio_get_pin_number p w = Some (n, w) /\
    ((g = UNROUTED /\ n = UNROUTED) \/
     (0 <= g < UNROUTED /\ 0 <= n < UNROUTED)).
Proof.
  intros Hvalid.
  destruct (valid_pin_slot p Hvalid) as (g & n & Hg & Hn & Hgb & Hnb & Hiff).
  assert (Hle : port p <= GPIO_MAX_PORTS) by (destruct Hvalid; lia).
  exists g, n.
  rewrite gpio_get_group_number_accepted, gpio_get_pin_number_accepted
    by exact Hle.
  rewrite Hg, Hn. simpl. repeat split.
  destruct (Z.eq_dec g UNROUTED) as [Heq | Hne].
  - left. split; [exact Heq | apply Hiff; exact Heq].
  - right. assert (n <> UNROUTED) by (intros Hn'; apply Hne, Hiff, Hn'). lia.
Qed.

Lemma topology_tables_are_consistent_witness :
  valid_pin (gpio_pin 3 7) /\
  exists g n,
    gpio_get_group_number (gpio_pin 3 7) reset_world = Some (g, reset_world) /\
    gpio_get_pin_number (gpio_pin 3 7) reset_world = Some (n, reset_world) /\
    ((g = UNROUTED /\ n = UNROUTED) \/
     (0 <= g < UNROUTED /\ 0 <= n < UNROUTED)).
Proof.
  assert (Hvalid : valid_pin (gpio_pin 3 7)).
  { unfold valid_pin, GPIO_MAX_PORTS, GPIO_MAX_PORT_BITS. simpl. lia. }
  split; [exact Hvalid |].
  apply (topology_tables_are_consistent (gpio_pin 3 7) reset_world Hvalid).
Defined.

(** C3.  For a valid pin whose slot holds the unrouted sentinel in either
    table, [gpio_configure_pinmux_and_resistors] returns [EINVAL] and the
    world is untouched: the trace gains no event, so the pinmux
    collaborator is not called. *)
Theorem unrouted_pin_is_not_configured
    (p : gpio_pin_t) (r : gpio_resistor_configuration_t) (w : world) :
  valid_pin p ->
  table_entry gpio_to_pin_group (port p) (pin p) = Some UNROUTED \/
  table_entry gpio_to_pin_number (port p) (pin p) = Some UNROUTED ->
  gpio_configure_pinmux_and_resistors p r w = Some (EINVAL, w) /\
  trace_of (gpio_configure_pinmux_and_resistors p r) w = Some (trace w) /\
  forall w', regs_of (gpio_configure_pinmux_and_resistors p r) w = Some w' ->
             forall a, w' a = regs w a.
Proof.
  intros Hvalid Hunrouted.
  destruct (valid_pin_slot p Hvalid) as (g & n & Hg & Hn & _ & _ & Hiff).
  assert (Hle : port p <= GPIO_MAX_PORTS) by (destruct Hvalid; lia).
  assert (Hrun : gpio_configure_pinmux_and_resistors p r w = Some (EINVAL, w)).
  { rewrite (gpio_configure_pinmux_and_resistors_accepted p r w g n Hle Hg Hn).
    assert (Hsentinel : g = UNROUTED \/ n = UNROUTED).
    { destruct Hunrouted as [H | H]; [left | right]; congruence. }
    assert (Hor : (g =? 255) || (n =? 255) = true).
    { apply orb_true_iff.
      destruct Hsentinel as [-> | ->]; [left | right]; reflexivity. }
    rewrite Hor. reflexivity. }
  split; [exact Hrun |].
  unfold trace_of, regs_of. rewrite Hrun. simpl.
  split; [reflexivity |]. intros w' Hw'. inversion Hw'. reflexivity.
Qed.

Lemma unrouted_pin_is_not_configured_witness :
  valid_pin (gpio_pin 2 1) /\
  table_entry gpio_to_pin_group 2 1 = Some UNROUTED /\
  result_of (gpio_configure_pinmux_and_resistors (gpio_pin 2 1) SCU_NO_PULL)
            reset_world = Some EINVAL /\
  trace_of (gpio_configure_pinmux_and_resistors (gpio_pin 2 1) SCU_NO_PULL)
           reset_world = Some [].
Proof.
  assert (Hvalid : valid_pin (gpio_pin 2 1)).
  { unfold valid_pin, GPIO_MAX_PORTS, GPIO_MAX_PORT_BITS. simpl. lia. }
  assert (Hentry : table_entry gpio_to_pin_group 2 1 = Some UNROUTED)
    by reflexivity.
  split; [exact Hvalid |]. split; [exact Hentry |].
  destruct (unrouted_pin_is_not_configured
              (gpio_pin 2 1) SCU_NO_PULL reset_world Hvalid (or_introl Hentry))
    as [Hrun [Htrace _]].
  unfold result_of. rewrite Hrun. split; [reflexivity | exact Htrace].
Defined.

(** C5.  For a valid, routed pin the collaborator is called once, with
    the group and pin number of the tables, the given resistor mode, and
    function select 4 when the port is 5 and 0 for every other port. *)
Theorem function_select_follows_the_port
    (p : gpio_pin_t) (r : gpio_resistor_configuration_t) (w : world) (g n : Z) :
  valid_pin p ->
  table_entry gpio_to_pin_group (port p) (pin p) = Some g ->
  table_entry gpio_to_pin_number (port p) (pin p) = Some n ->
  g <> UNROUTED -> n <> UNROUTED ->
  (port p <> 5 ->
   gpio_configure_pinmux_and_resistors p r w =
     Some (0, World (regs w) (trace w ++ [ScuConfigurePinGpio g n 0 r]))) /\
  (port p = 5 ->
   gpio_configure_pinmux_and_resistors p r w =
     Some (0, World (regs w) (trace w ++ [ScuConfigurePinGpio g n 4 r]))).
Proof.
  intros Hvalid Hg Hn Hgr Hnr.
  assert (Hle : port p <= GPIO_MAX_PORTS) by (destruct Hvalid; lia).
  rewrite (gpio_configure_pinmux_and_resistors_accepted p r w g n Hle Hg Hn).
  assert (Hor : (g =? 255) || (n =? 255) = false).
  { apply orb_false_iff. split; apply Z.eqb_neq; assumption. }
  rewrite Hor. split; intros Hport.
  - apply Z.eqb_neq in Hport. rewrite Hport. reflexivity.
  - rewrite Hport. reflexivity.
Qed.

Lemma function_select_follows_the_port_witness :
  (valid_pin (gpio_pin 5 18) /\
   trace_of (gpio_configure_pinmux_and_resistors (gpio_pin 5 18) SCU_NO_PULL)
            reset_world = Some [ScuConfigurePinGpio 9 5 4 SCU_NO_PULL]) /\
  (valid_pin (gpio_pin 4 11) /\
   trace_of (gpio_configure_pinmux_and_resistors (gpio_pin 4 11) SCU_NO_PULL)
            reset_world = Some [ScuConfigurePinGpio 9 6 0 SCU_NO_PULL]).
Proof.
  assert (Hv5 : valid_pin (gpio_pin 5 18)).
  { unfold valid_pin, GPIO_MAX_PORTS, GPIO_MAX_PORT_BITS. simpl. lia. }
  assert (Hv4 : valid_pin (gpio_pin 4 11)).
  { unfold valid_pin, GPIO_MAX_PORTS, GPIO_MAX_PORT_BITS. simpl. lia. }
  split; (split; [assumption |]).
  - destruct (function_select_follows_the_port
                (gpio_pin 5 18) SCU_NO_PULL reset_world 9 5 Hv5
                eq_refl eq_refl) as [_ Hspecial].
    + unfold UNROUTED. lia.
    + unfold UNROUTED. lia.
    + unfold trace_of. rewrite (Hspecial eq_refl). reflexivity.
  - destruct (function_select_follows_the_port
                (gpio_pin 4 11) SCU_NO_PULL reset_world 9 6 Hv4
                eq_refl eq_refl) as [Hdefault _].
    + unfold UNROUTED. lia.
    + unfold UNROUTED. lia.
    + unfold trace_of. rewrite Hdefault; [reflexivity | simpl; lia].
Defined.

(** C6.  Port 0, pin 2: the tables give group 1 and pin number 15, and
    [gpio_configure_pinmux_and_resistors] returns 0 after one call of the
    collaborator with (1, 15, 0, the given resistor mode). *)
Theorem port0_pin2_route (r : gpio_resistor_configuration_t) (w : world) :
  gpio_get_group_number (gpio_pin 0 2) w = Some (1, w) /\
  gpio_get_pin_number (gpio_pin 0 2) w = Some (15, w) /\
  gpio_configure_pinmux_and_resistors (gpio_pin 0 2) r w =
    Some (0, World (regs w) (trace w ++ [ScuConfigurePinGpio 1 15 0 r])).
Proof. repeat split. Qed.

(** ** Register addresses and the banks of the device *)

Lemma gpio_get_registers_eq (port : Z) :
  0 <= port < 32 ->
  gpio_get_registers port = 0x400f6000 + 4 * port.
Proof.
  intros Hport. unfold gpio_get_registers, u32, GPIO_LPC_BASE,
    GPIO_LPC_PORT_OFFSET, sizeof_uint32_t.
  rewrite Z.mod_small; lia.
Qed.

(** The word [f] bytes into the block of a port lies in the bank that
    starts at [off] exactly when [f = off], for bank-aligned [f], [off]. *)
Lemma in_bank_field (port f off : Z) :
  0 <= port < 32 ->
  f mod 0x80 = 0 -> off mod 0x80 = 0 ->
  in_bank off (gpio_get_registers port + f) = (f =? off).
Proof.
  intros Hport Hf Hoff. rewrite gpio_get_registers_eq by exact Hport.
  unfold in_bank, GPIO_LPC_BASE, GPIO_LPC_PORT_OFFSET, sizeof_uint32_t.
  destruct (Z.eqb_spec f off) as [-> | Hne].
  - match goal with
    | |- context [?x mod 4] => replace x with (port * 4) by lia
    end.
    rewrite Z.mod_mul by lia. rewrite Z.eqb_refl.
    rewrite andb_true_r. apply andb_true_iff.
    split; [apply Z.leb_le | apply Z.ltb_lt]; lia.
  - apply andb_false_iff. left.
    apply Z.mod_divide in Hf, Hoff; try lia.
    destruct Hf as [kf ->]. destruct Hoff as [ko ->].
    match goal with
    | |- (?lo <=? ?a) && _ = false =>
        destruct (Z.leb_spec lo a) as [Hle | Hlt];
        [rewrite andb_true_l | reflexivity]
    end.
    apply Z.ltb_ge. lia.
Qed.

(** Decides every bank test on a field of the block of a valid port. *)
Ltac plain_bank :=
  unfold hw_store, hw_load;
  repeat match goal with
  | |- context [in_bank ?off (gpio_get_registers ?p + ?f)] =>
      rewrite (in_bank_field p f off)
        by (first [reflexivity | unfold valid_port, GPIO_MAX_PORTS in *; lia]);
      let b := eval vm_compute in (f =? off) in
      change (f =? off) with b
  end;
  cbv beta iota zeta.

Lemma upd_same (m : regfile) (a v : Z) : upd m a v a = v.
Proof. unfold upd. rewrite Z.eqb_refl. reflexivity. Qed.

Lemma upd_other (m : regfile) (a v a' : Z) : a' <> a -> upd m a v a' = m a'.
Proof.
  intros Hne. unfold upd. apply Z.eqb_neq in Hne. rewrite Hne. reflexivity.
Qed.

Section PortBlock.

Variable port : Z.
Hypothesis Hport : valid_port port.

Local Notation "'reg'" := (gpio_get_registers port).

Lemma valid_port_accepted : port <= GPIO_MAX_PORTS.
Proof. unfold valid_port in Hport. lia. Qed.

(** The direction word is plain storage. *)
Lemma direction_store (v : Z) (m : regfile) :
  hw_store (reg + gpio_registers.direction) v m =
    upd m (reg + gpio_registers.direction) v.
Proof. plain_bank. reflexivity. Qed.

Lemma direction_load (m : regfile) :
  hw_load (reg + gpio_registers.direction) m = m (reg + gpio_registers.direction).
Proof. plain_bank. reflexivity. Qed.

(** The pin word reads back what it holds. *)
Lemma pins_load (m : regfile) :
  hw_load (reg + gpio_registers.pins) m = m (reg + gpio_registers.pins).
Proof. plain_bank. reflexivity. Qed.

(** A store to the toggle word xors the mask into the pin word. *)
Lemma toggle_store (v : Z) (m : regfile) :
  hw_store (reg + gpio_registers.toggle) v m =
    upd m (reg + gpio_registers.pins) (Z.lxor (m (reg + gpio_registers.pins)) v).
Proof.
  plain_bank.
  replace (gpio_get_registers port + gpio_registers.toggle
           - gpio_registers.toggle + gpio_registers.pins)
    with (gpio_get_registers port + gpio_registers.pins) by lia.
  reflexivity.
Qed.

(** Toggling twice with one mask gives back the register file. *)
Lemma toggle_store_twice (v : Z) (m : regfile) (a : Z) :
  hw_store (reg + gpio_registers.toggle) v
           (hw_store (reg + gpio_registers.toggle) v m) a = m a.
Proof.
  rewrite !toggle_store.
  destruct (Z.eq_dec a (reg + gpio_registers.pins)) as [-> | Hne].
  - rewrite !upd_same. rewrite Z.lxor_assoc, Z.lxor_nilpotent.
    apply Z.lxor_0_r.
  - rewrite !upd_other by exact Hne. reflexivity.
Qed.

Lemma gpio_set_port_direction_accepted (mask output_mask : Z) (w : world) :
  let a := reg + gpio_registers.direction in
  let new := Z.lor (Z.land (regs w a) (u32 (Z.lnot mask))) output_mask in
  gpio_set_port_direction port mask output_mask w =
    Some (0, World (upd (regs w) a new)
                   (trace w ++ [BusLoad a; BusStore a new])).
Proof.
  intros a new. unfold gpio_set_port_direction, bind.
  rewrite validate_port_accepts by exact valid_port_accepted.
  run_step. unfold load, store, ret. cbn [regs trace].
  rewrite direction_load, direction_store.
  rewrite <- app_assoc. reflexivity.
Qed.

Lemma gpio_toggle_port_bits_accepted (mask : Z) (w : world) :
  let a := reg + gpio_registers.toggle in
  gpio_toggle_port_bits port mask w =
    Some (0, World (hw_store a mask (regs w)) (trace w ++ [BusStore a mask])).
Proof.
  intros a. unfold gpio_toggle_port_bits, bind.
  rewrite validate_port_accepts by exact valid_port_accepted. reflexivity.
Qed.

End PortBlock.

Lemma u32_lnot_bit (mask i : Z) :
  0 <= i < 32 -> Z.testbit (u32 (Z.lnot mask)) i = negb (Z.testbit mask i).
Proof.
  intros Hi. unfold u32. rewrite Z.mod_pow2_bits_low by lia.
  apply Z.lnot_spec. lia.
Qed.

(** ** Direction: read-modify-write (C7) *)

(** What [gpio_set_port_direction] computes on a valid port: it loads
    the direction word, clears the bits the mask selects, ors in the
    output bits as they are, stores the result to the same word and
    returns 0.  Bit by bit: a bit of the result is 1 when the output bit
    is 1 or when the old bit was 1 and the mask does not select it. *)
Theorem set_port_direction_read_modify_write
    (port mask output_mask : Z) (w : world) :
  valid_port port ->
  0 <= mask < 2 ^ 32 -> 0 <= output_mask < 2 ^ 32 ->
  let a := gpio_get_registers port + gpio_registers.direction in
  let old := direction_word port (regs w) in
  let new := Z.lor (Z.land old (u32 (Z.lnot mask))) output_mask in
  result_of (gpio_set_port_direction port mask output_mask) w = Some 0 /\
  trace_of (gpio_set_port_direction port mask output_mask) w =
    Some (trace w ++ [BusLoad a; BusStore a new]) /\
  direction_after port mask output_mask w = Some new /\
  (forall i, 0 <= i < 32 ->
     Z.testbit new i =
       (Z.testbit old i && negb (Z.testbit mask i)) || Z.testbit output_mask i) /\
  (forall i, 0 <= i < 32 ->
     Z.testbit mask i = false -> Z.testbit output_mask i = false ->
     Z.testbit new i = Z.testbit old i).
Proof.
  intros Hport Hmask Hout a old new.
  assert (Hold : old = regs w a).
  { unfold old, direction_word. apply direction_load. exact Hport. }
  assert (Hbit : forall i, 0 <= i < 32 ->
            Z.testbit new i =
              (Z.testbit old i && negb (Z.testbit mask i))
              || Z.testbit output_mask i).
  { intros i Hi. unfold new.
    rewrite Z.lor_spec, Z.land_spec, u32_lnot_bit by exact Hi. reflexivity. }
  unfold result_of, trace_of, direction_after, regs_of.
  rewrite (gpio_set_port_direction_accepted port Hport mask output_mask w).
  cbn [option_map fst snd regs trace]. fold a. rewrite <- Hold. fold new.
  repeat split.
  - unfold direction_word. rewrite direction_load by exact Hport.
    fold a. rewrite upd_same. reflexivity.
  - exact Hbit.
  - intros i Hi Hm Ho. rewrite (Hbit i Hi), Hm, Ho.
    rewrite andb_true_r, orb_false_r. reflexivity.
Qed.

Lemma set_port_direction_read_modify_write_witness :
  valid_port 2 /\
  result_of (gpio_set_port_direction 2 0x0f 0x05) reset_world = Some 0 /\
  direction_after 2 0x0f 0x05 reset_world = Some 0x05.
Proof.
  assert (Hport : valid_port 2) by (unfold valid_port, GPIO_MAX_PORTS; lia).
  split; [exact Hport |].
  destruct (set_port_direction_read_modify_write 2 0x0f 0x05 reset_world Hport)
    as (Hres & _ & Hafter & _); [lia | lia |].
  split; [exact Hres | rewrite Hafter; reflexivity].
Defined.

(** The frame property holds whenever the output bits lie inside the
    mask, which is how [gpio_set_pin_direction] calls the function. *)
Lemma unmasked_bits_unchanged_within_mask
    (prt mask output_mask : Z) (w : world) :
  valid_port prt ->
  (forall i, 0 <= i < 32 ->
     Z.testbit output_mask i = true -> Z.testbit mask i = true) ->
  unmasked_bits_unchanged prt mask output_mask w.
Proof.
  intros Hport Hinside i Hi Hmask.
  unfold direction_after, regs_of.
  rewrite (gpio_set_port_direction_accepted prt Hport mask output_mask w).
  cbn [option_map snd regs]. unfold direction_word.
  rewrite !direction_load by exact Hport. rewrite upd_same.
  rewrite Z.lor_spec, Z.land_spec, u32_lnot_bit by exact Hi.
  rewrite Hmask, andb_true_r.
  destruct (Z.testbit output_mask i) eqn:Hout.
  - rewrite (Hinside i Hi Hout) in Hmask. discriminate Hmask.
  - rewrite orb_false_r. reflexivity.
Qed.

(** C7.  The claim: [gpio_set_port_direction] clears the bits the mask
    selects, ors in the output bits and leaves every bit the mask does
    not select unchanged.  The driver at port 0 with every pin an input,
    mask 0 and output bits 1: the output bits are ored in without being
    filtered by the mask, the word 1 is stored, and bit 0, which the mask
    does not select, changes from 0 to 1. *)
Theorem set_port_direction_changes_an_unmasked_bit :
  let prt := 0 in
  let mask := 0 in
  let output_mask := 1 in
  valid_port prt /\
  Z.testbit mask 0 = false /\
  Z.testbit (direction_word prt (regs reset_world)) 0 = false /\
  result_of (gpio_set_port_direction prt mask output_mask) reset_world
    = Some 0 /\
  trace_of (gpio_set_port_direction prt mask output_mask) reset_world
    = Some [BusLoad 0x400f6000; BusStore 0x400f6000 1] /\
  option_map (fun d => Z.testbit d 0)
             (direction_after prt mask output_mask reset_world) = Some true /\
  ~ unmasked_bits_unchanged prt mask output_mask reset_world.
Proof.
  cbv zeta.
  split; [unfold valid_port, GPIO_MAX_PORTS; lia |].
  split; [reflexivity |]. split; [reflexivity |].
  split; [reflexivity |]. split; [reflexivity |].
  split; [reflexivity |].
  intros Hframe.
  assert (Hrange : 0 <= 0 < 32) by lia.
  pose proof (Hframe 0 Hrange eq_refl) as Hbits.
  vm_compute in Hbits. discriminate Hbits.
Qed.

(** ** Toggling twice (C8) *)

(** C8.  For a valid port, two calls of [gpio_toggle_port_bits] with the
    same mask both return 0, each after one store of the mask to the
    toggle word; after the first the pin word is the old one xor the
    mask, after the second the pin word, and every other word of the
    register file, reads as before the first. *)
Theorem toggle_twice_restores_pins (port mask : Z) (w : world) :
  valid_port port ->
  exists w1 w2,
    gpio_toggle_port_bits port mask w = Some (0, w1) /\
    gpio_toggle_port_bits port mask w1 = Some (0, w2) /\
    pins_word port (regs w1) = Z.lxor (pins_word port (regs w)) mask /\
    pins_word port (regs w2) = pins_word port (regs w) /\
    (forall a, regs w2 a = regs w a).
Proof.
  intros Hport.
  eexists. eexists.
  split; [apply (gpio_toggle_port_bits_accepted port Hport) |].
  split; [apply (gpio_toggle_port_bits_accepted port Hport) |].
  cbn [regs trace]. unfold pins_word.
  rewrite !pins_load by exact Hport.
  split; [| split].
  - rewrite toggle_store by exact Hport. apply upd_same.
  - apply toggle_store_twice. exact Hport.
  - intros a. apply toggle_store_twice. exact Hport.
Qed.

Lemma toggle_twice_restores_pins_witness :
  valid_port 1 /\
  exists w1 w2,
    gpio_toggle_port_bits 1 0xa5 reset_world = Some (0, w1) /\
    gpio_toggle_port_bits 1 0xa5 w1 = Some (0, w2) /\
    pins_word 1 (regs w1) = 0xa5 /\
    pins_word 1 (regs w2) = 0.
Proof.
  assert (Hport : valid_port 1) by (unfold valid_port, GPIO_MAX_PORTS; lia).
  split; [exact Hport |].
  destruct (toggle_twice_restores_pins 1 0xa5 reset_world Hport)
    as (w1 & w2 & H1 & H2 & Hfirst & Hsecond & _).
  exists w1, w2.
  split; [exact H1 |]. split; [exact H2 |].
  split; [rewrite Hfirst | rewrite Hsecond]; reflexivity.
Defined.

(** ** Reading a pin (C9) *)

(** C9, counterexample.  Port 7 fails validation, and the result of
    [gpio_get_pin_value] on port 7, pin 0 is [EINVAL] = 22: neither 0
    nor 1. *)
Lemma get_pin_value_not_always_0_or_1 :
  ~ (result_of (gpio_get_pin_value (gpio_pin 7 0)) reset_world = Some 0 \/
     result_of (gpio_get_pin_value (gpio_pin 7 0)) reset_world = Some 1).
Proof.
  assert (Hrun : result_of (gpio_get_pin_value (gpio_pin 7 0)) reset_world
                 = Some 22) by reflexivity.
  rewrite Hrun. intros [H | H]; discriminate H.
Qed.

(** C9, amended.  For a valid pin, [gpio_get_pin_value] performs one
    load, of the word register of the pin, and returns 0 when that word is
    zero and 1 when it is anything else. *)
Theorem get_pin_value_normalises_the_word (p : gpio_pin_t) (w : world) :
  valid_pin p ->
  let a := gpio_get_pin_register p in
  let word := hw_load a (regs w) in
  let result := result_of (gpio_get_pin_value p) w in
  gpio_get_pin_value p w =
    Some (if word =? 0 then 0 else 1,
          World (regs w) (trace w ++ [BusLoad a])) /\
  (word = 0 -> result = Some 0) /\
  (word <> 0 -> result = Some 1) /\
  (result = Some 0 \/ result = Some 1).
Proof.
  intros Hvalid a word result.
  assert (Hle : port p <= GPIO_MAX_PORTS) by (destruct Hvalid; lia).
  assert (Hrun : gpio_get_pin_value p w =
                   Some (if word =? 0 then 0 else 1,
                         World (regs w) (trace w ++ [BusLoad a]))).
  { unfold gpio_get_pin_value, bind.
    rewrite validate_port_and_pin_accepts by exact Hle. run_step.
    unfold load, ret. fold a. fold word.
    destruct (word =? 0); reflexivity. }
  unfold result, result_of. rewrite Hrun. cbn [option_map fst].
  split; [reflexivity |].
  destruct (Z.eqb_spec word 0) as [Hz | Hnz].
  - split; [reflexivity |]. split; [contradiction | left; reflexivity].
  - split; [contradiction |]. split; [reflexivity | right; reflexivity].
Qed.

Lemma get_pin_value_normalises_the_word_witness :
  valid_pin (gpio_pin 1 3) /\
  result_of (gpio_get_pin_value (gpio_pin 1 3))
            (World (upd (regs reset_world)
                        (gpio_get_pin_register (gpio_pin 1 3)) 0xffffffff) [])
    = Some 1.
Proof.
  assert (Hvalid : valid_pin (gpio_pin 1 3)).
  { unfold valid_pin, GPIO_MAX_PORTS, GPIO_MAX_PORT_BITS, port, pin. lia. }
  split; [exact Hvalid |].
  destruct (get_pin_value_normalises_the_word
              (gpio_pin 1 3)
              (World (upd (regs reset_world)
                          (gpio_get_pin_register (gpio_pin 1 3)) 0xffffffff) [])
              Hvalid) as (_ & _ & Hone & _).
  apply Hone. vm_compute. discriminate.
Defined.

(** * Further properties of the driver *)

(** ** Register addresses *)

Lemma gpio_get_pin_register_eq (p : gpio_pin_t) :
  0 <= port p < 32 -> 0 <= pin p < 32 ->
  gpio_get_pin_register p = 0x400f5000 + 128 * port p + 4 * pin p.
Proof.
  intros Hport Hpin. unfold gpio_get_pin_register, u32, GPIO_LPC_BASE,
    GPIO_LPC_PIN_WORD_OFFSET, GPIO_LPC_PIN_WORD_SIZE, sizeof_uint32_t.
  rewrite Z.mod_small; lia.
Qed.

Lemma valid_pin_bounds (p : gpio_pin_t) :
  valid_pin p -> (0 <= port p < 6) /\ (0 <= pin p < 20).
Proof. unfold valid_pin, GPIO_MAX_PORTS, GPIO_MAX_PORT_BITS. tauto. Qed.

Lemma gpio_register_fields_cases (f : Z) :
  In f gpio_register_fields ->
  f = 0 \/ f = 128 \/ f = 256 \/ f = 384 \/ f = 512 \/ f = 640 \/ f = 768.
Proof.
  unfold gpio_register_fields. cbn [In].
  change gpio_registers.direction with 0.
  change gpio_registers.mask with 128.
  change gpio_registers.pins with 256.
  change gpio_registers.masked_pins with 384.
  change gpio_registers.set with 512.
  change gpio_registers.clear with 640.
  change gpio_registers.toggle with 768.
  intuition.
Qed.

(** X1.  The word registers of two different valid pins are different
    addresses; each is word-aligned and lies in the pin-word region, six
    port-sized windows starting at [GPIO_LPC_BASE + 0x1000]. *)
Theorem pin_registers_do_not_alias (p q : gpio_pin_t) :
  valid_pin p -> valid_pin q ->
  (gpio_get_pin_register p = gpio_get_pin_register q -> p = q) /\
  (GPIO_LPC_BASE + GPIO_LPC_PIN_WORD_OFFSET <= gpio_get_pin_register p
   < GPIO_LPC_BASE + GPIO_LPC_PIN_WORD_OFFSET
     + GPIO_MAX_PORTS * GPIO_LPC_PIN_WORD_SIZE) /\
  gpio_get_pin_register p mod sizeof_uint32_t = 0 /\
  platform_gpio_get_pin_register p = gpio_get_pin_register p.
Proof.
  intros Hp Hq.
  apply valid_pin_bounds in Hp, Hq. destruct Hp as [Hp1 Hp2], Hq as [Hq1 Hq2].
  rewrite !gpio_get_pin_register_eq by lia.
  unfold GPIO_LPC_BASE, GPIO_LPC_PIN_WORD_OFFSET, GPIO_MAX_PORTS,
    GPIO_LPC_PIN_WORD_SIZE, sizeof_uint32_t.
  split; [| split; [lia | split; [| reflexivity]]].
  - intros Heq. destruct p as [pp pi], q as [qp qi]. cbn [port pin] in *.
    assert (pp = qp) by lia. assert (pi = qi) by lia. subst. reflexivity.
  - replace (1074745344 + 128 * port p + 4 * pin p)
      with ((268686336 + 32 * port p + pin p) * 4) by lia.
    apply Z.mod_mul. lia.
Qed.

Lemma pin_registers_do_not_alias_witness :
  valid_pin (gpio_pin 1 3) /\ valid_pin (gpio_pin 0 19) /\
  gpio_get_pin_register (gpio_pin 1 3) mod sizeof_uint32_t = 0.
Proof.
  assert (Hp : valid_pin (gpio_pin 1 3)).
  { unfold valid_pin, GPIO_MAX_PORTS, GPIO_MAX_PORT_BITS, port, pin. lia. }
  assert (Hq : valid_pin (gpio_pin 0 19)).
  { unfold valid_pin, GPIO_MAX_PORTS, GPIO_MAX_PORT_BITS, port, pin. lia. }
  split; [exact Hp |]. split; [exact Hq |].
  destruct (pin_registers_do_not_alias (gpio_pin 1 3) (gpio_pin 0 19) Hp Hq)
    as (_ & _ & Haligned & _).
  exact Haligned.
Defined.

(** X2.  For valid ports, a field of one register block is the same
    address as a field of another only when port and field agree, and no
    field of a block is the word register of a valid pin. *)
Theorem register_fields_do_not_alias (p q f g : Z) :
  valid_port p -> valid_port q ->
  In f gpio_register_fields -> In g gpio_register_fields ->
  (gpio_get_registers p + f = gpio_get_registers q + g -> p = q /\ f = g) /\
  (forall x, valid_pin x ->
             gpio_get_pin_register x <> gpio_get_registers p + f).
Proof.
  intros Hp Hq Hf Hg.
  unfold valid_port, GPIO_MAX_PORTS in Hp, Hq.
  apply gpio_register_fields_cases in Hf, Hg.
  rewrite !gpio_get_registers_eq by lia.
  split.
  - intros Heq. lia.
  - intros x Hx. apply valid_pin_bounds in Hx.
    rewrite gpio_get_pin_register_eq by lia. lia.
Qed.

Lemma register_fields_do_not_alias_witness :
  valid_port 2 /\ valid_port 3 /\
  gpio_get_registers 2 + gpio_registers.set
  <> gpio_get_registers 3 + gpio_registers.direction.
Proof.
  assert (H2 : valid_port 2) by (unfold valid_port, GPIO_MAX_PORTS; lia).
  assert (H3 : valid_port 3) by (unfold valid_port, GPIO_MAX_PORTS; lia).
  split; [exact H2 |]. split; [exact H3 |].
  intros Heq.
  destruct (register_fields_do_not_alias
              2 3 gpio_registers.set gpio_registers.direction H2 H3)
    as [Hinj _].
  - unfold gpio_register_fields. cbn [In]. tauto.
  - unfold gpio_register_fields. cbn [In]. tauto.
  - destruct (Hinj Heq) as [Hports _]. lia.
Defined.

(** ** Pin-level functions through port-level ones *)

(** X3.  Whatever the pin, accepted or rejected, the single-bit
    functions behave exactly as the port-wide function of the pin's port
    applied to the mask [1 << pin.pin]: same result, same register file,
    same trace. *)
Theorem pin_operations_are_port_operations
    (p : gpio_pin_t) (is_output : bool) (w : world) :
  gpio_set_pin p w = gpio_set_port_bits (port p) (pin_mask p) w /\
  gpio_clear_pin p w = gpio_clear_port_bits (port p) (pin_mask p) w /\
  gpio_toggle_pin p w = gpio_toggle_port_bits (port p) (pin_mask p) w /\
  gpio_set_pin_direction p is_output w =
    gpio_set_port_direction (port p) (pin_mask p)
                            (if is_output then pin_mask p else 0) w.
Proof.
  destruct (Z.le_gt_cases (port p) GPIO_MAX_PORTS) as [Hle | Hgt].
  - unfold gpio_set_pin, gpio_clear_pin, gpio_toggle_pin,
      gpio_set_pin_direction, bind.
    rewrite validate_port_and_pin_accepts by exact Hle. run_step.
    unfold gpio_set_port_bits, gpio_clear_port_bits, gpio_toggle_port_bits,
      bind.
    rewrite validate_port_accepts by exact Hle.
    repeat split; reflexivity.
  - destruct (pin_operations_reject p 0 is_output w Hgt)
      as (Hdir & _ & _ & Hset & Hclear & Htoggle & _).
    destruct (port_operations_reject
                (port p) (pin_mask p) (if is_output then pin_mask p else 0)
                w Hgt)
      as (Hpdir & _ & _ & Hpset & Hpclear & Hptoggle & _).
    rewrite Hdir, Hset, Hclear, Htoggle, Hpdir, Hpset, Hpclear, Hptoggle.
    repeat split; reflexivity.
Qed.

(** ** Status codes *)

(** X4.  The status of every [int]-returning port-level function is
    decided by the port alone: [EINVAL] when the port exceeds
    [GPIO_MAX_PORTS], 0 otherwise; the pin-level ones follow the port of
    the pin, whatever its pin index. *)
Theorem status_is_decided_by_the_port
    (p : gpio_pin_t) (mask value : Z) (is_output : bool) (w : world) :
  (result_of (gpio_set_port_direction (port p) mask value) w
     = Some (port_status (port p)) /\
   result_of (gpio_set_port_value (port p) mask value) w
     = Some (port_status (port p)) /\
   result_of (gpio_set_port_bits (port p) mask) w
     = Some (port_status (port p)) /\
   result_of (gpio_clear_port_bits (port p) mask) w
     = Some (port_status (port p)) /\
   result_of (gpio_toggle_port_bits (port p) mask) w
     = Some (port_status (port p))) /\
  (result_of (gpio_set_pin_direction p is_output) w
     = Some (port_status (port p)) /\
   result_of (gpio_set_pin_value p value) w = Some (port_status (port p)) /\
   result_of (gpio_set_pin p) w = Some (port_status (port p)) /\
   result_of (gpio_clear_pin p) w = Some (port_status (port p)) /\
   result_of (gpio_toggle_pin p) w = Some (port_status (port p))).
Proof.
  unfold port_status, result_of.
  destruct (Z.gtb_spec (port p) GPIO_MAX_PORTS) as [Hgt | Hle].
  - destruct (pin_operations_reject p value is_output w Hgt)
      as (Hdir & _ & Hval & Hset & Hclear & Htoggle & _).
    destruct (port_operations_reject (port p) mask value w Hgt)
      as (Hpdir & _ & Hpval & Hpset & Hpclear & Hptoggle & _).
    rewrite Hdir, Hval, Hset, Hclear, Htoggle,
      Hpdir, Hpval, Hpset, Hpclear, Hptoggle.
    repeat split; reflexivity.
  - unfold gpio_set_pin, gpio_clear_pin, gpio_toggle_pin,
      gpio_set_pin_direction, gpio_set_pin_value, bind.
    rewrite validate_port_and_pin_accepts by exact Hle. run_step.
    unfold gpio_set_port_direction, gpio_set_port_value, gpio_set_port_bits,
      gpio_clear_port_bits, gpio_toggle_port_bits, bind.
    rewrite validate_port_accepts by exact Hle.
    repeat split; reflexivity.
Qed.

(** ** Pin directions *)

Lemma land_shiftr_1 (x n : Z) :
  0 <= n -> Z.land (Z.shiftr x n) 1 = Z.b2z (Z.testbit x n).
Proof.
  intros Hn. change 1 with (Z.ones 1). rewrite Z.land_ones by lia.
  change (2 ^ 1) with 2. rewrite <- Z.bit0_mod.
  rewrite Z.shiftr_spec by lia. rewrite Z.add_0_l. reflexivity.
Qed.

Lemma pin_mask_bit (p : gpio_pin_t) (i : Z) :
  0 <= pin p < 32 -> 0 <= i ->
  Z.testbit (pin_mask p) i = (pin p =? i).
Proof.
  intros Hpin Hi. unfold pin_mask, u32.
  rewrite Z.shiftl_mul_pow2, Z.mul_1_l by lia.
  rewrite Z.mod_small.
  - apply Z.pow2_bits_eqb. lia.
  - split; [apply Z.pow_nonneg; lia | apply Z.pow_lt_mono_r; lia].
Qed.

Lemma gpio_get_pin_direction_accepted (p : gpio_pin_t) (w : world) :
  valid_pin p ->
  let a := gpio_get_registers (port p) + gpio_registers.direction in
  gpio_get_pin_direction p w =
    Some (Z.b2z (Z.testbit (regs w a) (pin p)),
          World (regs w) (trace w ++ [BusLoad a])).
Proof.
  intros Hvalid a.
  assert (Hport : valid_port (port p)) by (destruct Hvalid; assumption).
  assert (Hle : port p <= GPIO_MAX_PORTS) by (destruct Hvalid; lia).
  unfold gpio_get_pin_direction, gpio_get_port_direction, bind.
  rewrite validate_port_accepts by exact Hle. run_step.
  unfold load. rewrite validate_port_and_pin_accepts by exact Hle. run_step.
  rewrite direction_load by exact Hport.
  rewrite land_shiftr_1 by (destruct Hvalid; lia). reflexivity.
Qed.

(** X5.  For a valid pin, [gpio_get_pin_direction] performs the one load
    [gpio_get_port_direction] performs and returns bit [pin.pin] of the
    word that function returns: 1 or 0, nothing else. *)
Theorem get_pin_direction_is_a_bit_of_the_port (p : gpio_pin_t) (w : world) :
  valid_pin p ->
  exists word w',
    gpio_get_port_direction (port p) w = Some (word, w') /\
    gpio_get_pin_direction p w =
      Some (Z.b2z (Z.testbit word (pin p)), w') /\
    (result_of (gpio_get_pin_direction p) w = Some 0 \/
     result_of (gpio_get_pin_direction p) w = Some 1) /\
    regs w' = regs w /\
    trace w' =
      trace w ++ [BusLoad (gpio_get_registers (port p)
                           + gpio_registers.direction)].
Proof.
  intros Hvalid.
  assert (Hport : valid_port (port p)) by (destruct Hvalid; assumption).
  assert (Hle : port p <= GPIO_MAX_PORTS) by (destruct Hvalid; lia).
  pose proof (gpio_get_pin_direction_accepted p w Hvalid) as Hpin.
  cbv zeta in Hpin.
  eexists. eexists. split.
  - unfold gpio_get_port_direction, bind.
    rewrite validate_port_accepts by exact Hle. run_step.
    unfold load. rewrite direction_load by exact Hport. reflexivity.
  - split; [exact Hpin |].
    unfold result_of. rewrite Hpin. cbn [option_map fst regs trace].
    split; [| split; reflexivity].
    destruct (Z.testbit _ _); [right | left]; reflexivity.
Qed.

Lemma get_pin_direction_is_a_bit_of_the_port_witness :
  valid_pin (gpio_pin 4 11) /\
  result_of (gpio_get_pin_direction (gpio_pin 4 11))
            (World (upd (regs reset_world)
                        (gpio_get_registers 4 + gpio_registers.direction)
                        0x800) [])
    = Some 1.
Proof.
  assert (Hvalid : valid_pin (gpio_pin 4 11)).
  { unfold valid_pin, GPIO_MAX_PORTS, GPIO_MAX_PORT_BITS, port, pin. lia. }
  split; [exact Hvalid |].
  destruct (get_pin_direction_is_a_bit_of_the_port
              (gpio_pin 4 11)
              (World (upd (regs reset_world)
                          (gpio_get_registers 4 + gpio_registers.direction)
                          0x800) [])
              Hvalid) as (word & w' & Hword & Hpin & _).
  unfold result_of. rewrite Hpin. cbn [option_map fst].
  assert (Hvalue : word = 0x800) by (vm_compute in Hword; congruence).
  rewrite Hvalue. reflexivity.
Defined.

(** X6.  For a valid pin, [gpio_set_pin_direction] succeeds, and
    [gpio_get_pin_direction] then returns 1 after setting the pin as an
    output and 0 after setting it as an input; the direction read for
    every other valid pin, on the same port or another, is what it was
    before. *)
Theorem pin_direction_round_trip
    (p : gpio_pin_t) (is_output : bool) (w : world) :
  valid_pin p ->
  exists w1,
    gpio_set_pin_direction p is_output w = Some (0, w1) /\
    result_of (gpio_get_pin_direction p) w1
      = Some (if is_output then 1 else 0) /\
    (forall q, valid_pin q -> q <> p ->
       result_of (gpio_get_pin_direction q) w1
       = result_of (gpio_get_pin_direction q) w).
Proof.
  intros Hvalid.
  assert (Hport : valid_port (port p)) by (destruct Hvalid; assumption).
  assert (Hle : port p <= GPIO_MAX_PORTS) by (destruct Hvalid; lia).
  assert (Hpin : 0 <= pin p < 32).
  { apply valid_pin_bounds in Hvalid. lia. }
  eexists. split.
  - unfold gpio_set_pin_direction, bind.
    rewrite validate_port_and_pin_accepts by exact Hle. run_step.
    apply (gpio_set_port_direction_accepted (port p) Hport).
  - unfold result_of.
    split.
    + rewrite gpio_get_pin_direction_accepted by exact Hvalid.
      cbn [option_map fst regs]. rewrite upd_same.
      rewrite Z.lor_spec, Z.land_spec, u32_lnot_bit by lia.
      fold (pin_mask p). rewrite pin_mask_bit by lia. rewrite Z.eqb_refl.
      destruct is_output.
      * rewrite pin_mask_bit by lia. rewrite Z.eqb_refl.
        rewrite orb_true_r. reflexivity.
      * rewrite Z.testbit_0_l, andb_false_r. reflexivity.
    + intros q Hq Hne.
      rewrite !gpio_get_pin_direction_accepted by exact Hq.
      cbn [option_map fst regs].
      assert (Hqb := valid_pin_bounds q Hq).
      assert (Hpb := valid_pin_bounds p Hvalid).
      destruct (Z.eq_dec (port q) (port p)) as [Hsame | Hother].
      * assert (Hidx : pin p <> pin q).
        { intros Heq. apply Hne. destruct p, q. cbn [port pin] in *.
          subst. reflexivity. }
        rewrite Hsame, upd_same.
        rewrite Z.lor_spec, Z.land_spec, u32_lnot_bit by lia.
        fold (pin_mask p). rewrite pin_mask_bit by lia.
        apply Z.eqb_neq in Hidx. rewrite Hidx.
        assert (Hout : Z.testbit (if is_output then pin_mask p else 0) (pin q)
                       = false).
        { destruct is_output; [| apply Z.testbit_0_l].
          rewrite pin_mask_bit by lia. exact Hidx. }
        rewrite Hout, andb_true_r, orb_false_r. reflexivity.
      * rewrite upd_other; [reflexivity |].
        rewrite !gpio_get_registers_eq by lia. lia.
Qed.

Lemma pin_direction_round_trip_witness :
  valid_pin (gpio_pin 2 5) /\
  exists w1,
    gpio_set_pin_direction (gpio_pin 2 5) true reset_world = Some (0, w1) /\
    result_of (gpio_get_pin_direction (gpio_pin 2 5)) w1 = Some 1.
Proof.
  assert (Hvalid : valid_pin (gpio_pin 2 5)).
  { unfold valid_pin, GPIO_MAX_PORTS, GPIO_MAX_PORT_BITS, port, pin. lia. }
  split; [exact Hvalid |].
  destruct (pin_direction_round_trip (gpio_pin 2 5) true reset_world Hvalid)
    as (w1 & Hset & Hget & _).
  exists w1. split; [exact Hset | exact Hget].
Defined.

(** X7.  For a valid port, a second [gpio_set_port_direction] with the
    same mask and output bits stores the word the first one stored and
    leaves every register as the first one left it. *)
Theorem set_port_direction_is_idempotent
    (port mask output_mask : Z) (w : world) :
  valid_port port ->
  exists w1 w2 word,
    gpio_set_port_direction port mask output_mask w = Some (0, w1) /\
    gpio_set_port_direction port mask output_mask w1 = Some (0, w2) /\
    trace w1 = trace w ++
      [BusLoad (gpio_get_registers port + gpio_registers.direction);
       BusStore (gpio_get_registers port + gpio_registers.direction) word] /\
    trace w2 = trace w1 ++
      [BusLoad (gpio_get_registers port + gpio_registers.direction);
       BusStore (gpio_get_registers port + gpio_registers.direction) word] /\
    (forall a, regs w2 a = regs w1 a).
Proof.
  intros Hport.
  eexists. eexists. eexists.
  split; [apply (gpio_set_port_direction_accepted port Hport) |].
  split; [apply (gpio_set_port_direction_accepted port Hport) |].
  cbn [regs trace]. rewrite upd_same.
  set (a := gpio_get_registers port + gpio_registers.direction).
  set (word := Z.lor (Z.land (regs w a) (u32 (Z.lnot mask))) output_mask).
  assert (Hsame : Z.lor (Z.land word (u32 (Z.lnot mask))) output_mask = word).
  { unfold word. apply Z.bits_inj'. intros n Hn.
    rewrite !Z.lor_spec, !Z.land_spec, !Z.lor_spec, !Z.land_spec.
    destruct (Z.testbit (regs w a) n), (Z.testbit (u32 (Z.lnot mask)) n),
      (Z.testbit output_mask n); reflexivity. }
  rewrite Hsame.
  split; [reflexivity |]. split; [reflexivity |].
  intros a'. unfold upd. destruct (a' =? a); reflexivity.
Qed.

Lemma set_port_direction_is_idempotent_witness :
  valid_port 3 /\
  exists w1 w2,
    gpio_set_port_direction 3 0xf0 0x30 reset_world = Some (0, w1) /\
    gpio_set_port_direction 3 0xf0 0x30 w1 = Some (0, w2) /\
    (forall a, regs w2 a = regs w1 a).
Proof.
  assert (Hport : valid_port 3) by (unfold valid_port, GPIO_MAX_PORTS; lia).
  split; [exact Hport |].
  destruct (set_port_direction_is_idempotent 3 0xf0 0x30 reset_world Hport)
    as (w1 & w2 & word & H1 & H2 & _ & _ & Hregs).
  exists w1, w2. split; [exact H1 |]. split; [exact H2 | exact Hregs].
Defined.

(** ** Routing a whole port *)

Lemma world_eta (w : world) : World (regs w) (trace w ++ []) = w.
Proof. destruct w as [m t]. cbn [regs trace]. rewrite app_nil_r. reflexivity. Qed.

Lemma in_pins_from (count : nat) (first x : Z) :
  In x (pins_from first count) <-> first <= x < first + Z.of_nat count.
Proof.
  revert first. induction count as [| n IH]; intros first.
  - cbn [pins_from In]. lia.
  - cbn [pins_from In]. rewrite IH. lia.
Qed.

Lemma gpio_configure_pinmux_valid (p : gpio_pin_t) (w : world) :
  valid_pin p ->
  gpio_configure_pinmux p w =
    Some (tt, World (regs w) (trace w ++ pin_route_events p)).
Proof.
  intros Hvalid.
  destruct (valid_pin_slot p Hvalid) as (g & n & Hg & Hn & _).
  assert (Hle : port p <= GPIO_MAX_PORTS) by (destruct Hvalid; lia).
  unfold gpio_configure_pinmux, bind, pin_route_events.
  rewrite (gpio_configure_pinmux_and_resistors_accepted
             p SCU_NO_PULL w g n Hle Hg Hn).
  rewrite Hg, Hn. change UNROUTED with 255.
  destruct ((g =? 255) || (n =? 255)).
  - rewrite world_eta. reflexivity.
  - reflexivity.
Qed.

Lemma for_each_pin_routes (prt : Z) (count : nat) :
  valid_port prt ->
  forall (first : Z) (w : world),
    0 <= first -> first + Z.of_nat count <= GPIO_MAX_PORT_BITS ->
    for_each_pin count first
                 (fun idx => gpio_configure_pinmux (gpio_pin prt idx)) w =
      Some (tt, World (regs w)
                      (trace w ++
                       flat_map (fun idx => pin_route_events (gpio_pin prt idx))
                                (pins_from first count))).
Proof.
  intros Hport. induction count as [| n IH]; intros first w Hfirst Hlast.
  - cbn [for_each_pin pins_from flat_map]. rewrite world_eta. reflexivity.
  - cbn [for_each_pin pins_from flat_map]. unfold bind.
    rewrite gpio_configure_pinmux_valid
      by (unfold valid_pin; cbn [port pin]; split; [exact Hport | lia]).
    rewrite IH by lia. cbn [regs trace]. rewrite app_assoc. reflexivity.
Qed.

(** X8.  For a valid port, [gpio_configure_port_pinmuxes] returns 0.
    It makes no bus access of its own: what it adds to the trace is calls
    of the collaborator only, in ascending order of the pin index, one
    for each pin of the port whose two table entries are both routed,
    with those entries, function select 4 on port 5 and 0 elsewhere, and
    [SCU_NO_PULL]; unrouted pins are passed over in silence. *)
Theorem configure_port_pinmuxes_routes_the_routed_pins (prt : Z) (w : world) :
  valid_port prt ->
  result_of (gpio_configure_port_pinmuxes prt) w = Some 0 /\
  trace_of (gpio_configure_port_pinmuxes prt) w =
    Some (trace w ++ port_route_events prt) /\
  (forall e, In e (port_route_events prt) <->
     exists idx g n,
       0 <= idx < GPIO_MAX_PORT_BITS /\
       table_entry gpio_to_pin_group prt idx = Some g /\
       table_entry gpio_to_pin_number prt idx = Some n /\
       g <> UNROUTED /\ n <> UNROUTED /\
       e = ScuConfigurePinGpio g n (if prt =? 5 then 4 else 0) SCU_NO_PULL).
Proof.
  intros Hport.
  assert (Hrun : gpio_configure_port_pinmuxes prt w =
            Some (0, World (regs w) (trace w ++ port_route_events prt))).
  { unfold gpio_configure_port_pinmuxes, bind.
    rewrite validate_port_accepts by (unfold valid_port in Hport; lia).
    run_step.
    rewrite (for_each_pin_routes prt _ Hport 0 w)
      by (unfold GPIO_MAX_PORT_BITS; cbn; lia).
    reflexivity. }
  unfold result_of, trace_of. rewrite Hrun. cbn [option_map fst snd trace].
  split; [reflexivity |]. split; [reflexivity |].
  intros e. unfold port_route_events. rewrite in_flat_map. split.
  - intros (idx & Hidx & He). apply in_pins_from in Hidx.
    rewrite Z2Nat.id in Hidx by (unfold GPIO_MAX_PORT_BITS; lia).
    unfold pin_route_events in He. cbn [port pin] in He.
    destruct (table_entry gpio_to_pin_group prt idx) as [g |] eqn:Hge;
      [| contradiction].
    destruct (table_entry gpio_to_pin_number prt idx) as [n |] eqn:Hne;
      [| contradiction].
    destruct (Z.eqb_spec g UNROUTED) as [Hg | Hg]; [contradiction |].
    destruct (Z.eqb_spec n UNROUTED) as [Hn | Hn]; [contradiction |].
    cbn [orb In] in He. destruct He as [He | []].
    exists idx, g, n.
    split; [lia |]. split; [exact Hge |]. split; [exact Hne |].
    split; [exact Hg |]. split; [exact Hn |]. symmetry. exact He.
  - intros (idx & g & n & Hidx & Hg & Hn & Hgr & Hnr & He).
    exists idx. split.
    + apply in_pins_from.
      rewrite Z2Nat.id by (unfold GPIO_MAX_PORT_BITS; lia). lia.
    + unfold pin_route_events. cbn [port pin]. rewrite Hg, Hn.
      apply Z.eqb_neq in Hgr, Hnr. rewrite Hgr, Hnr. cbn [orb In].
      left. symmetry. exact He.
Qed.

Lemma configure_port_pinmuxes_routes_the_routed_pins_witness :
  valid_port 4 /\
  result_of (gpio_configure_port_pinmuxes 4) reset_world = Some 0 /\
  trace_of (gpio_configure_port_pinmuxes 4) reset_world =
    Some [ScuConfigurePinGpio 9 6 0 SCU_NO_PULL].
Proof.
  assert (Hport : valid_port 4) by (unfold valid_port, GPIO_MAX_PORTS; lia).
  split; [exact Hport |].
  destruct (configure_port_pinmuxes_routes_the_routed_pins 4 reset_world Hport)
    as (Hres & Htrace & _).
  split; [exact Hres |]. rewrite Htrace. reflexivity.
Defined.

(** ** Where the table reads are defined *)

Lemma table_entry_in_bounds (table : list (list Z)) (prt idx g : Z) :
  length table = Z.to_nat GPIO_MAX_PORTS ->
  Forall (fun row => length row = Z.to_nat GPIO_MAX_PORT_BITS) table ->
  table_entry table prt idx = Some g ->
  0 <= prt < GPIO_MAX_PORTS /\ 0 <= idx < GPIO_MAX_PORT_BITS.
Proof.
  intros Hrows Hcols Hentry. unfold table_entry in Hentry.
  destruct (Z.leb_spec 0 prt) as [Hprt |]; [| discriminate Hentry].
  destruct (Z.leb_spec 0 idx) as [Hidx |]; [| discriminate Hentry].
  cbn [andb] in Hentry.
  destruct (nth_error table (Z.to_nat prt)) as [row |] eqn:Hrow;
    [| discriminate Hentry].
  assert (Hlen : length row = Z.to_nat GPIO_MAX_PORT_BITS).
  { apply nth_error_In in Hrow.
    exact (proj1 (Forall_forall _ _) Hcols row Hrow). }
  assert (Hr : (Z.to_nat prt < length table)%nat).
  { apply nth_error_Some. rewrite Hrow. discriminate. }
  assert (Hc : (Z.to_nat idx < length row)%nat).
  { apply nth_error_Some. rewrite Hentry. discriminate. }
  rewrite Hrows in Hr. rewrite Hlen in Hc.
  unfold GPIO_MAX_PORTS, GPIO_MAX_PORT_BITS in *. lia.
Qed.

Lemma gpio_to_pin_group_shape :
  length gpio_to_pin_group = Z.to_nat GPIO_MAX_PORTS /\
  Forall (fun row => length row = Z.to_nat GPIO_MAX_PORT_BITS) gpio_to_pin_group.
Proof. split; [reflexivity |]. repeat constructor. Qed.

Lemma gpio_to_pin_number_shape :
  length gpio_to_pin_number = Z.to_nat GPIO_MAX_PORTS /\
  Forall (fun row => length row = Z.to_nat GPIO_MAX_PORT_BITS) gpio_to_pin_number.
Proof. split; [reflexivity |]. repeat constructor. Qed.

Lemma gpio_configure_pinmux_and_resistors_rejected
    (p : gpio_pin_t) (r : gpio_resistor_configuration_t) (w : world) :
  GPIO_MAX_PORTS < port p ->
  gpio_configure_pinmux_and_resistors p r w =
    Some (EINVAL, warned w [port p]).
Proof.
  intros Hgt. unfold gpio_configure_pinmux_and_resistors, bind.
  rewrite validate_port_and_pin_rejects by exact Hgt. reflexivity.
Qed.

Lemma gpio_configure_pinmux_and_resistors_out_of_bounds
    (p : gpio_pin_t) (r : gpio_resistor_configuration_t) (w : world) :
  port p <= GPIO_MAX_PORTS ->
  table_entry gpio_to_pin_group (port p) (pin p) = None \/
  table_entry gpio_to_pin_number (port p) (pin p) = None ->
  gpio_configure_pinmux_and_resistors p r w = None.
Proof.
  intros Hle Hnone. unfold gpio_configure_pinmux_and_resistors, bind.
  rewrite validate_port_and_pin_accepts by exact Hle. run_step.
  rewrite gpio_get_group_number_accepted by exact Hle.
  destruct (table_entry gpio_to_pin_group (port p) (pin p)) as [g |];
    [| reflexivity].
  cbn [option_map].
  rewrite gpio_get_pin_number_accepted by exact Hle.
  destruct Hnone as [Hnone | Hnone]; [discriminate Hnone |].
  rewrite Hnone. reflexivity.
Qed.

(** X9.  Every outcome of [gpio_configure_pinmux_and_resistors], for any
    pin and resistor mode.  It makes no bus access of its own.  It reads a
    table out of bounds exactly when the pin is accepted by validation but
    not valid.  Otherwise it returns [EINVAL] after one warning and with
    every register as it was (port rejected), [EINVAL] with the world
    untouched (sentinel in a table), or 0 after one call of the
    collaborator and nothing else in the trace, with the two table
    entries, neither of them the sentinel, function select 4 on port 5
    and 0 elsewhere, and the resistor mode it was given. *)
Theorem route_pin_outcomes
    (p : gpio_pin_t) (r : gpio_resistor_configuration_t) (w : world) :
  match gpio_configure_pinmux_and_resistors p r w with
  | None => port p <= GPIO_MAX_PORTS /\ ~ valid_pin p
  | Some (status, w') =>
      (status = EINVAL /\ GPIO_MAX_PORTS < port p /\
       regs w' = regs w /\
       trace w' = trace w ++ [PrWarning [port p]]) \/
      (status = EINVAL /\ valid_pin p /\ w' = w /\
       (table_entry gpio_to_pin_group (port p) (pin p) = Some UNROUTED \/
        table_entry gpio_to_pin_number (port p) (pin p) = Some UNROUTED)) \/
      (status = 0 /\ valid_pin p /\
       exists g n,
         table_entry gpio_to_pin_group (port p) (pin p) = Some g /\
         table_entry gpio_to_pin_number (port p) (pin p) = Some n /\
         g <> UNROUTED /\ n <> UNROUTED /\
         trace w' =
           trace w ++
           [ScuConfigurePinGpio g n (if port p =? 5 then 4 else 0) r])
  end.
Proof.
  destruct (Z.le_gt_cases (port p) GPIO_MAX_PORTS) as [Hle | Hgt].
  - destruct (table_entry gpio_to_pin_group (port p) (pin p)) as [g |] eqn:Hg.
    + destruct (table_entry gpio_to_pin_number (port p) (pin p)) as [n |] eqn:Hn.
      * assert (Hvalid : valid_pin p).
        { destruct gpio_to_pin_group_shape as [Hrows Hcols].
          exact (table_entry_in_bounds _ _ _ _ Hrows Hcols Hg). }
        rewrite (gpio_configure_pinmux_and_resistors_accepted
                   p r w g n Hle Hg Hn).
        change UNROUTED with 255.
        destruct (Z.eqb_spec g 255) as [Hgs | Hgr].
        { cbn [orb]. right. left.
          split; [reflexivity |]. split; [exact Hvalid |].
          split; [reflexivity |]. left. rewrite Hgs. reflexivity. }
        destruct (Z.eqb_spec n 255) as [Hns | Hnr].
        { cbn [orb]. right. left.
          split; [reflexivity |]. split; [exact Hvalid |].
          split; [reflexivity |]. right. rewrite Hns. reflexivity. }
        cbn [orb regs trace]. right. right.
        split; [reflexivity |]. split; [exact Hvalid |].
        exists g, n.
        split; [reflexivity |]. split; [reflexivity |].
        split; [exact Hgr |]. split; [exact Hnr | reflexivity].
      * rewrite gpio_configure_pinmux_and_resistors_out_of_bounds
          by (try exact Hle; right; exact Hn).
        split; [exact Hle |]. intros Hvalid.
        destruct (valid_pin_slot p Hvalid) as (_ & n & _ & Hn' & _).
        rewrite Hn in Hn'. discriminate Hn'.
    + rewrite gpio_configure_pinmux_and_resistors_out_of_bounds
        by (try exact Hle; left; exact Hg).
      split; [exact Hle |]. intros Hvalid.
      destruct (valid_pin_slot p Hvalid) as (g & _ & Hg' & _).
      rewrite Hg in Hg'. discriminate Hg'.
  - rewrite gpio_configure_pinmux_and_resistors_rejected by exact Hgt.
    unfold warned. cbn [regs trace].
    left. split; [reflexivity |]. split; [exact Hgt |].
    split; reflexivity.
Qed.

Lemma lookup_outcome
    (table : list (list Z)) (lookup : gpio_pin_t -> M Z)
    (p : gpio_pin_t) (w : world) :
  (table = gpio_to_pin_group \/ table = gpio_to_pin_number) ->
  (forall q w0, port q <= GPIO_MAX_PORTS ->
     lookup q w0 = option_map (fun v => (v, w0))
                              (table_entry table (port q) (pin q))) ->
  (forall q w0, GPIO_MAX_PORTS < port q ->
     lookup q w0 = Some (UNROUTED, warned w0 [port q])) ->
  match lookup p w with
  | None => port p <= GPIO_MAX_PORTS /\ ~ valid_pin p
  | Some (v, w') =>
      0 <= v <= UNROUTED /\
      ((GPIO_MAX_PORTS < port p /\ v = UNROUTED /\ w' = warned w [port p]) \/
       (valid_pin p /\ w' = w /\ table_entry table (port p) (pin p) = Some v))
  end.
Proof.
  intros Htable Haccepted Hrejected.
  destruct (Z.le_gt_cases (port p) GPIO_MAX_PORTS) as [Hle | Hgt].
  - rewrite (Haccepted p w Hle).
    destruct (table_entry table (port p) (pin p)) as [v |] eqn:Hv;
      cbn [option_map].
    + assert (Hvalid : valid_pin p).
      { destruct Htable as [-> | ->].
        - destruct gpio_to_pin_group_shape as [Hrows Hcols].
          exact (table_entry_in_bounds _ _ _ _ Hrows Hcols Hv).
        - destruct gpio_to_pin_number_shape as [Hrows Hcols].
          exact (table_entry_in_bounds _ _ _ _ Hrows Hcols Hv). }
      destruct (valid_pin_slot p Hvalid) as (g & n & Hg & Hn & Hgb & Hnb & _).
      split.
      * destruct Htable as [-> | ->]; congruence.
      * right. split; [exact Hvalid |]. split; reflexivity.
    + split; [exact Hle |]. intros Hvalid.
      destruct (valid_pin_slot p Hvalid) as (g & n & Hg & Hn & _).
      destruct Htable as [-> | ->]; congruence.
  - rewrite (Hrejected p w Hgt). split; [unfold UNROUTED; lia |].
    left. split; [exact Hgt |]. split; reflexivity.
Qed.

(** X10.  Every outcome of the two lookups, for any pin.  A result is a
    byte.  On a port that validation rejects it is the sentinel [0xff],
    after one warning, which a caller cannot tell from an unrouted slot.
    On a valid pin it is the table entry and the world is untouched.  On
    a pin that validation accepts but that is not valid, the table is read
    out of bounds. *)
Theorem lookup_outcomes (p : gpio_pin_t) (w : world) :
  match gpio_get_group_number p w with
  | None => port p <= GPIO_MAX_PORTS /\ ~ valid_pin p
  | Some (g, w') =>
      0 <= g <= UNROUTED /\
      ((GPIO_MAX_PORTS < port p /\ g = UNROUTED /\ w' = warned w [port p]) \/
       (valid_pin p /\ w' = w /\
        table_entry gpio_to_pin_group (port p) (pin p) = Some g))
  end /\
  match gpio_get_pin_number p w with
  | None => port p <= GPIO_MAX_PORTS /\ ~ valid_pin p
  | Some (n, w') =>
      0 <= n <= UNROUTED /\
      ((GPIO_MAX_PORTS < port p /\ n = UNROUTED /\ w' = warned w [port p]) \/
       (valid_pin p /\ w' = w /\
        table_entry gpio_to_pin_number (port p) (pin p) = Some n))
  end.
Proof.
  split.
  - apply (lookup_outcome gpio_to_pin_group gpio_get_group_number p w).
    + left. reflexivity.
    + intros q w0 Hle. apply gpio_get_group_number_accepted. exact Hle.
    + intros q w0 Hgt. unfold gpio_get_group_number, bind.
      rewrite validate_port_and_pin_rejects by exact Hgt. reflexivity.
  - apply (lookup_outcome gpio_to_pin_number gpio_get_pin_number p w).
    + right. reflexivity.
    + intros q w0 Hle. apply gpio_get_pin_number_accepted. exact Hle.
    + intros q w0 Hgt. unfold gpio_get_pin_number, bind.
      rewrite validate_port_and_pin_rejects by exact Hgt. reflexivity.
Qed.

(** ** Reads and writes of the getters *)

Lemma count_writes_load (t : list event) (a : Z) :
  count_writes (t ++ [BusLoad a]) = count_writes t.
Proof.
  rewrite count_writes_app. unfold count_writes at 2.
  cbn [filter is_store length]. lia.
Qed.

Lemma count_writes_store (t : list event) (a v : Z) :
  count_writes (t ++ [BusStore a v]) = S (count_writes t).
Proof.
  rewrite count_writes_app. unfold count_writes at 2.
  cbn [filter is_store length]. lia.
Qed.

Lemma read_only_warned {A : Type} (m : M A) (w : world) (v : A) (args : list Z) :
  m w = Some (v, warned w args) -> read_only m w.
Proof.
  intros Hrun. exists v, (warned w args). split; [exact Hrun |].
  destruct (warned_no_write w args) as [Hcount Hregs].
  split; [exact Hregs | exact Hcount].
Qed.

Lemma read_only_load {A : Type} (m : M A) (w : world) (v : A) (a : Z) :
  m w = Some (v, World (regs w) (trace w ++ [BusLoad a])) -> read_only m w.
Proof.
  intros Hrun. exists v, (World (regs w) (trace w ++ [BusLoad a])).
  split; [exact Hrun |]. cbn [regs trace].
  split; [reflexivity | apply count_writes_load].
Qed.

(** X11.  For any port and pin, accepted or rejected,
    [gpio_get_port_direction], [gpio_get_pin_direction],
    [gpio_get_pin_value] and [gpio_fast_get_pin_value] terminate, leave
    every register as it was and add no store to the trace. *)
Theorem getters_do_not_write (p : gpio_pin_t) (w : world) :
  read_only (gpio_get_port_direction (port p)) w /\
  read_only (gpio_get_pin_direction p) w /\
  read_only (gpio_get_pin_value p) w /\
  read_only (gpio_fast_get_pin_value p) w.
Proof.
  assert (Hfast : read_only (gpio_fast_get_pin_value p) w).
  { eapply read_only_load. reflexivity. }
  destruct (Z.le_gt_cases (port p) GPIO_MAX_PORTS) as [Hle | Hgt].
  - split; [| split; [| split; [| exact Hfast]]].
    + eapply read_only_load. unfold gpio_get_port_direction, bind.
      rewrite validate_port_accepts by exact Hle. reflexivity.
    + eapply read_only_load. unfold gpio_get_pin_direction,
        gpio_get_port_direction, bind.
      rewrite validate_port_accepts by exact Hle. run_step.
      unfold load. rewrite validate_port_and_pin_accepts by exact Hle.
      reflexivity.
    + eapply read_only_load. unfold gpio_get_pin_value, bind.
      rewrite validate_port_and_pin_accepts by exact Hle. reflexivity.
  - destruct (pin_operations_reject p 0 false w Hgt)
      as (_ & Hdir & _ & _ & _ & _ & Hval).
    destruct (port_operations_reject (port p) 0 0 w Hgt) as (_ & Hpdir & _).
    split; [| split; [| split; [| exact Hfast]]].
    + eapply read_only_warned. exact Hpdir.
    + exists 0, (warned (warned w [port p]) [port p]).
      split; [exact Hdir |].
      destruct (warned_no_write (warned w [port p]) [port p]) as [Hc2 Hr2].
      destruct (warned_no_write w [port p]) as [Hc1 Hr1].
      split; [rewrite Hr2; exact Hr1 | rewrite Hc2; exact Hc1].
    + eapply read_only_warned. exact Hval.
Qed.

Lemma mask_store (prt v : Z) (m : regfile) :
  valid_port prt ->
  hw_store (gpio_get_registers prt + gpio_registers.mask) v m =
    upd m (gpio_get_registers prt + gpio_registers.mask) v.
Proof. intros Hport. plain_bank. reflexivity. Qed.

(** X12.  [gpio_get_port_value] is the one getter that writes: on a
    valid port it stores its mask argument to the mask word of the port
    before it loads the masked-pins word.  Afterwards the mask word holds
    that argument, whatever an earlier [gpio_set_port_value] left there,
    and every other register is as before. *)
Theorem get_port_value_overwrites_the_mask (prt mask : Z) (w : world) :
  valid_port prt ->
  let mask_word := gpio_get_registers prt + gpio_registers.mask in
  let masked_pins_word := gpio_get_registers prt + gpio_registers.masked_pins in
  exists v w',
    gpio_get_port_value prt mask w = Some (v, w') /\
    trace w' = trace w ++ [BusStore mask_word mask; BusLoad masked_pins_word] /\
    count_writes (trace w') = S (count_writes (trace w)) /\
    regs w' mask_word = mask /\
    (forall a, a <> mask_word -> regs w' a = regs w a) /\
    ~ read_only (gpio_get_port_value prt mask) w.
Proof.
  intros Hport mask_word masked_pins_word.
  assert (Hrun : gpio_get_port_value prt mask w =
            Some (hw_load masked_pins_word (upd (regs w) mask_word mask),
                  World (upd (regs w) mask_word mask)
                        (trace w ++ [BusStore mask_word mask;
                                     BusLoad masked_pins_word]))).
  { unfold gpio_get_port_value, bind.
    rewrite validate_port_accepts by (unfold valid_port in Hport; lia).
    run_step. unfold store, load. cbn [regs trace].
    rewrite mask_store by exact Hport. rewrite <- app_assoc. reflexivity. }
  assert (Hcount : count_writes (trace w ++ [BusStore mask_word mask;
                                             BusLoad masked_pins_word])
                   = S (count_writes (trace w))).
  { change [BusStore mask_word mask; BusLoad masked_pins_word]
      with ([BusStore mask_word mask] ++ [BusLoad masked_pins_word]).
    rewrite app_assoc, count_writes_load. apply count_writes_store. }
  eexists. eexists. split; [exact Hrun |]. cbn [regs trace].
  split; [reflexivity |]. split; [exact Hcount |].
  split; [apply upd_same |]. split; [intros a Ha; apply upd_other; exact Ha |].
  intros (v & w' & Hrun' & _ & Hsame).
  rewrite Hrun in Hrun'. inversion Hrun' as [[Hv Hw]]. subst w'.
  cbn [trace] in Hsame. rewrite Hcount in Hsame. lia.
Qed.

Lemma get_port_value_overwrites_the_mask_witness :
  valid_port 0 /\
  exists w1 v w2,
    gpio_set_port_value 0 0xff00 0x1200 reset_world = Some (0, w1) /\
    regs w1 (gpio_get_registers 0 + gpio_registers.mask) = 0xff00 /\
    gpio_get_port_value 0 0x00ff w1 = Some (v, w2) /\
    regs w2 (gpio_get_registers 0 + gpio_registers.mask) = 0x00ff.
Proof.
  assert (Hport : valid_port 0) by (unfold valid_port, GPIO_MAX_PORTS; lia).
  split; [exact Hport |].
  destruct (gpio_set_port_value 0 0xff00 0x1200 reset_world)
    as [[status w1] |] eqn:Hset; [| discriminate Hset].
  assert (Hstatus : status = 0) by (vm_compute in Hset; congruence).
  assert (Hmask : regs w1 (gpio_get_registers 0 + gpio_registers.mask) = 0xff00).
  { vm_compute in Hset. inversion Hset. reflexivity. }
  destruct (get_port_value_overwrites_the_mask 0 0x00ff w1 Hport)
    as (v & w2 & Hget & _ & _ & Hafter & _).
  exists w1, v, w2. rewrite Hstatus.
  split; [reflexivity |]. split; [exact Hmask |].
  split; [exact Hget | exact Hafter].
Defined.

(** X13.  [gpio_fast_get_pin_value] never validates: for any pin it
    loads the word register of the pin and returns the word.
    [gpio_get_pin_value] makes the same load and returns the word
    normalised to 0 or 1 when the port of the pin is at most
    [GPIO_MAX_PORTS]; on any other pin it makes no bus access and returns
    [EINVAL] after one warning. *)
Theorem validated_read_versus_fast_read (p : gpio_pin_t) (w : world) :
  let a := gpio_get_pin_register p in
  let word := hw_load a (regs w) in
  let loaded := World (regs w) (trace w ++ [BusLoad a]) in
  gpio_fast_get_pin_value p w = Some (word, loaded) /\
  (port p <= GPIO_MAX_PORTS ->
   gpio_get_pin_value p w = Some (if word =? 0 then 0 else 1, loaded)) /\
  (GPIO_MAX_PORTS < port p ->
   gpio_get_pin_value p w = Some (EINVAL, warned w [port p])).
Proof.
  intros a word loaded. split; [reflexivity |]. split.
  - intros Hle. unfold gpio_get_pin_value, bind.
    rewrite validate_port_and_pin_accepts by exact Hle. run_step.
    unfold load, ret. fold a. fold word. fold loaded.
    destruct (word =? 0); reflexivity.
  - intros Hgt.
    destruct (pin_operations_reject p 0 false w Hgt)
      as (_ & _ & _ & _ & _ & _ & Hval).
    exact Hval.
Qed.

Lemma validated_read_versus_fast_read_witness :
  gpio_get_pin_value (gpio_pin 7 31) reset_world
    = Some (EINVAL, warned reset_world [7]) /\
  result_of (gpio_fast_get_pin_value (gpio_pin 7 31)) reset_world = Some 0 /\
  trace_of (gpio_fast_get_pin_value (gpio_pin 7 31)) reset_world
    = Some [BusLoad 0x400f53fc].
Proof.
  destruct (validated_read_versus_fast_read (gpio_pin 7 31) reset_world)
    as (Hfast & _ & Hrejected).
  split.
  - apply Hrejected. unfold GPIO_MAX_PORTS, port. lia.
  - unfold result_of, trace_of. rewrite Hfast. split; reflexivity.
Defined.

(** ** One physical pin per logical pin *)

Lemma all_routes_differ :
  forallb (fun p => forallb (routes_differ p) all_pins) all_pins = true.
Proof. vm_compute. reflexivity. Qed.

(** X14.  The two tables never give two different valid pins the same
    physical pin: when one of two different valid pins is routed, the
    group and pin number of the other differ from its own in at least one
    of the two. *)
Theorem routed_pins_share_no_physical_pin
    (p q : gpio_pin_t) (g1 n1 g2 n2 : Z) :
  valid_pin p -> valid_pin q -> p <> q ->
  table_entry gpio_to_pin_group (port p) (pin p) = Some g1 ->
  table_entry gpio_to_pin_number (port p) (pin p) = Some n1 ->
  table_entry gpio_to_pin_group (port q) (pin q) = Some g2 ->
  table_entry gpio_to_pin_number (port q) (pin q) = Some n2 ->
  g1 <> UNROUTED -> n1 <> UNROUTED ->
  (g1, n1) <> (g2, n2).
Proof.
  intros Hp Hq Hne Hpg Hpn Hqg Hqn Hg Hn Hsame.
  inversion Hsame; subst g2 n2.
  pose proof (proj1 (forallb_forall _ _) all_routes_differ p
                    (valid_pin_in_all_pins p Hp)) as Hrow.
  pose proof (proj1 (forallb_forall _ _) Hrow q
                    (valid_pin_in_all_pins q Hq)) as Hpair.
  unfold routes_differ in Hpair. rewrite Hpg, Hpn, Hqg, Hqn in Hpair.
  apply Z.eqb_neq in Hg, Hn. rewrite Hg, Hn, !Z.eqb_refl in Hpair.
  cbn [orb andb negb] in Hpair.
  apply andb_true_iff in Hpair. destruct Hpair as [Hport Hpin].
  apply Z.eqb_eq in Hport, Hpin.
  apply Hne. destruct p, q. cbn [port pin] in *. subst. reflexivity.
Qed.

Lemma routed_pins_share_no_physical_pin_witness :
  valid_pin (gpio_pin 0 5) /\ valid_pin (gpio_pin 3 5) /\
  table_entry gpio_to_pin_group 0 5 = Some 6 /\
  table_entry gpio_to_pin_group 3 5 = Some 6 /\
  (6, 6) <> (6, 9).
Proof.
  assert (Hp : valid_pin (gpio_pin 0 5)).
  { unfold valid_pin, GPIO_MAX_PORTS, GPIO_MAX_PORT_BITS, port, pin. lia. }
  assert (Hq : valid_pin (gpio_pin 3 5)).
  { unfold valid_pin, GPIO_MAX_PORTS, GPIO_MAX_PORT_BITS, port, pin. lia. }
  split; [exact Hp |]. split; [exact Hq |].
  split; [reflexivity |]. split; [reflexivity |].
  apply (routed_pins_share_no_physical_pin
           (gpio_pin 0 5) (gpio_pin 3 5) 6 6 6 9 Hp Hq).
  - discriminate.
  - reflexivity.
  - reflexivity.
  - reflexivity.
  - reflexivity.
  - unfold UNROUTED. lia.
  - unfold UNROUTED. lia.
Defined.

(** ** Setting the direction of two pins *)

Lemma gpio_set_pin_direction_accepted
    (p : gpio_pin_t) (is_output : bool) (w : world) :
  valid_pin p ->
  let a := gpio_get_registers (port p) + gpio_registers.direction in
  let word := Z.lor (Z.land (regs w a) (u32 (Z.lnot (pin_mask p))))
                    (if is_output then pin_mask p else 0) in
  gpio_set_pin_direction p is_output w =
    Some (0, World (upd (regs w) a word)
                   (trace w ++ [BusLoad a; BusStore a word])).
Proof.
  intros Hvalid a word.
  assert (Hport : valid_port (port p)) by (destruct Hvalid; assumption).
  assert (Hle : port p <= GPIO_MAX_PORTS) by (destruct Hvalid; lia).
  unfold gpio_set_pin_direction, bind.
  rewrite validate_port_and_pin_accepts by exact Hle. run_step.
  apply (gpio_set_port_direction_accepted (port p) Hport).
Qed.

Lemma direction_bits_of_distinct_pins (p q : gpio_pin_t) (b : bool) (n : Z) :
  0 <= pin p < 32 -> 0 <= pin q < 32 -> pin p <> pin q -> 0 <= n ->
  Z.testbit (if b then pin_mask p else 0) n = true ->
  Z.testbit (u32 (Z.lnot (pin_mask q))) n = true.
Proof.
  intros Hp Hq Hne Hn Hbit.
  destruct b; [| rewrite Z.testbit_0_l in Hbit; discriminate Hbit].
  rewrite pin_mask_bit in Hbit by lia. apply Z.eqb_eq in Hbit. subst n.
  rewrite u32_lnot_bit by lia. rewrite pin_mask_bit by lia.
  apply negb_true_iff. apply Z.eqb_neq. congruence.
Qed.

(** X15.  Setting the directions of two different valid pins gives the
    same register file in either order, whether the pins share a port or
    not. *)
Theorem pin_directions_commute
    (p q : gpio_pin_t) (bp bq : bool) (w : world) :
  valid_pin p -> valid_pin q -> p <> q ->
  exists wp wpq wq wqp,
    gpio_set_pin_direction p bp w = Some (0, wp) /\
    gpio_set_pin_direction q bq wp = Some (0, wpq) /\
    gpio_set_pin_direction q bq w = Some (0, wq) /\
    gpio_set_pin_direction p bp wq = Some (0, wqp) /\
    (forall a, regs wpq a = regs wqp a).
Proof.
  intros Hp Hq Hne.
  assert (Hpb := valid_pin_bounds p Hp). assert (Hqb := valid_pin_bounds q Hq).
  do 4 eexists.
  split; [apply (gpio_set_pin_direction_accepted p bp w Hp) |].
  split; [apply (gpio_set_pin_direction_accepted q bq _ Hq) |].
  split; [apply (gpio_set_pin_direction_accepted q bq w Hq) |].
  split; [apply (gpio_set_pin_direction_accepted p bp _ Hp) |].
  cbn [regs trace]. intros a.
  set (ap := gpio_get_registers (port p) + gpio_registers.direction).
  set (aq := gpio_get_registers (port q) + gpio_registers.direction).
  destruct (Z.eq_dec (port p) (port q)) as [Hsame | Hother].
  - assert (Hidx : pin p <> pin q).
    { intros Heq. apply Hne. destruct p, q. cbn [port pin] in *.
      subst. reflexivity. }
    assert (Haddr : aq = ap) by (unfold ap, aq; rewrite Hsame; reflexivity).
    rewrite Haddr. rewrite !upd_same.
    unfold upd. destruct (a =? ap); [| reflexivity].
    apply Z.bits_inj'. intros n Hn.
    rewrite !Z.lor_spec, !Z.land_spec, !Z.lor_spec, !Z.land_spec.
    pose proof (direction_bits_of_distinct_pins p q bp n) as Hpq.
    pose proof (direction_bits_of_distinct_pins q p bq n) as Hqp.
    destruct (Z.testbit (regs w ap) n),
      (Z.testbit (u32 (Z.lnot (pin_mask p))) n),
      (Z.testbit (u32 (Z.lnot (pin_mask q))) n),
      (Z.testbit (if bp then pin_mask p else 0) n),
      (Z.testbit (if bq then pin_mask q else 0) n);
      try reflexivity;
      first [ assert (Habs : false = true) by (apply Hpq; (lia || congruence))
            | assert (Habs : false = true) by (apply Hqp; (lia || congruence)) ];
      discriminate Habs.
  - assert (Haddr : ap <> aq).
    { unfold ap, aq. rewrite !gpio_get_registers_eq by lia. lia. }
    rewrite (upd_other _ ap _ aq) by congruence.
    rewrite (upd_other _ aq _ ap) by exact Haddr.
    unfold upd.
    destruct (Z.eqb_spec a aq) as [Haq | Haq];
      destruct (Z.eqb_spec a ap) as [Hap | Hap];
      try reflexivity.
    exfalso. apply Haddr. congruence.
Qed.

Lemma pin_directions_commute_witness :
  valid_pin (gpio_pin 1 0) /\ valid_pin (gpio_pin 1 4) /\
  exists wp wpq,
    gpio_set_pin_direction (gpio_pin 1 0) true reset_world = Some (0, wp) /\
    gpio_set_pin_direction (gpio_pin 1 4) true wp = Some (0, wpq).
Proof.
  assert (Hp : valid_pin (gpio_pin 1 0)).
  { unfold valid_pin, GPIO_MAX_PORTS, GPIO_MAX_PORT_BITS, port, pin. lia. }
  assert (Hq : valid_pin (gpio_pin 1 4)).
  { unfold valid_pin, GPIO_MAX_PORTS, GPIO_MAX_PORT_BITS, port, pin. lia. }
  split; [exact Hp |]. split; [exact Hq |].
  destruct (pin_directions_commute
              (gpio_pin 1 0) (gpio_pin 1 4) true true reset_world Hp Hq)
    as (wp & wpq & _ & _ & H1 & H2 & _).
  - discriminate.
  - exists wp, wpq. split; [exact H1 | exact H2].
Defined.
